(** * log_monitor.c: the logcat monitor of the Magisk daemon

    A shallow embedding of [native/jni/core/log_monitor.c] and the
    properties of its listener table, its filters, the dispatch loop, the
    logcat probe and the acceptor thread.

    Conventions of the embedding:
    - a C string is a [string]: the characters of the buffer before its
      terminating NUL; [strlen] is its length;
    - a pointer into a C string is an offset (a [Z]) from its first
      character, and a load through it is checked against the bounds of
      the string;
    - an [int] is a [Z]; the [int] result of a filter (the value of a C
      comparison or of [&&]) is a [bool];
    - global variables live in a [world] that is threaded through the
      functions by a small monad, together with the trace of the system
      calls issued so far;
    - what the operating system and the C library answer (the result of
      a [write], of a [read], of [fdopen], the pid of a child, the handle
      of a thread, an accepted connection) is an argument of the function
      that asks for it. *)

From Stdlib Require Import ZArith String Ascii Lia Bool.
From stdpp Require Import base option list strings.

Open Scope Z_scope.

(** ** Faults and results *)

(** What is undefined in C: a load outside the string a pointer was
    derived from (or an index outside an array), and a stdio call on the
    null stream. *)
Inductive fault : Type :=
| OutOfBounds (idx : Z)
| NullStream.

(** Result of a computation that only reads a string. *)
Inductive res (A : Type) : Type :=
| Ok (a : A)
| Err (f : fault).
Arguments Ok {A} a.
Arguments Err {A} f.

Definition res_bind {A B} (r : res A) (k : A -> res B) : res B :=
  match r with
  | Ok a => k a
  | Err f => Err f
  end.

(** ** C strings *)

(** [strlen(s)] *)
Definition strlen (s : string) : Z := Z.of_nat (String.length s).

(** [strstr(haystack, needle)]: the offset of the first occurrence of
    [needle] in [haystack], [None] for the null pointer. *)
Fixpoint strstr (haystack needle : string) : option nat :=
  if String.prefix needle haystack then Some 0%nat
  else match haystack with
       | EmptyString => None
       | String _ rest => S <$> strstr rest needle
       end.

(** [s[idx]] for a string [s] and a signed offset [idx]: the characters
    of the string and its terminator are in bounds, nothing else is. *)
Definition load (s : string) (idx : Z) : res ascii :=
  if idx <? 0 then Err (OutOfBounds idx)
  else match String.get (Z.to_nat idx) s with
       | Some c => Ok c
       | None => if idx =? strlen s then Ok Ascii.zero else Err (OutOfBounds idx)
       end.

(** [line[0]] of a buffer holding a C string (the terminator when the
    string is empty). *)
Definition first_char (s : string) : ascii :=
  match s with
  | EmptyString => Ascii.zero
  | String c _ => c
  end.

(** What it means for a string to contain another one. *)
Definition occurs_at (needle hay : string) (i : nat) : Prop :=
  exists pre post, hay = pre +:+ needle +:+ post /\ String.length pre = i.

Definition contains (needle hay : string) : Prop :=
  exists i, occurs_at needle hay i.

Definition first_occurrence (needle hay : string) (i : nat) : Prop :=
  occurs_at needle hay i /\ forall j, (j < i)%nat -> ~ occurs_at needle hay j.

(** ** The filters (log_monitor.c, lines 34-45) *)

(** [p != NULL] and [p == NULL] *)
Definition not_null {A} (p : option A) : bool :=
  match p with
  | Some _ => true
  | None => false
  end.

Definition is_null {A} (p : option A) : bool :=
  match p with
  | Some _ => false
  | None => true
  end.

(** [strstr(log, "am_proc_start") != NULL] *)
Definition am_proc_start_filter (log : string) : res bool :=
  Ok (not_null (strstr log "am_proc_start")).

(** [(ss = strstr(log, " Magisk")) && (ss[-1] != 'D') && (ss[-1] != 'V')]:
    [&&] evaluates its right operand only when the left one is true, so
    [ss[-1]] is loaded once or twice, and only when [ss] is not null. *)
Definition magisk_log_filter (log : string) : res bool :=
  match strstr log " Magisk" with
  | None => Ok false
  | Some i =>
      let ss := Z.of_nat i in
      res_bind (load log (ss + -1)) (fun c =>
      if negb (Ascii.eqb c "D") then
        res_bind (load log (ss + -1)) (fun c' => Ok (negb (Ascii.eqb c' "V")))
      else Ok false)
  end.

(** [strstr(log, "am_proc_start") == NULL] *)
Definition magisk_debug_log_filter (log : string) : res bool :=
  Ok (is_null (strstr log "am_proc_start")).

(** ** System calls, their answers and the trace *)

(** What [write(fd, buf, len)] answers: [n] bytes written, a broken pipe
    ([SIGPIPE] is delivered to the writing thread before [write] returns
    with [EPIPE]), any other error, which raises no signal, or nothing at
    all: the descriptors are in blocking mode, and a write to a socket
    whose peer has stopped reading does not return. *)
Inductive wres : Type :=
| WDone (n : Z)
| WPipe
| WFail
| WBlock.

(** What [read(fd, buf, count)] answers: its return value, or nothing at
    all when the descriptor stays silent and open (a blocking read has no
    time limit). *)
Inductive rres : Type :=
| RRet (n : Z)
| RNever.

Definition SIGTERM : Z := 15.

(** The system calls and thread operations the file issues. [EWrite]
    also records the index of the listener the write was issued for. *)
Inductive event : Type :=
| EExec (argv : list string) (pid fd : Z)
| ERead (fd count : Z)
| EKill (pid sig : Z)
| EWaitpid (pid : Z)
| EWrite (slot : nat) (fd : Z) (buf : string) (len : Z)
| EClose (fd : Z)
| EAccept (fd : Z)
| ELock
| EUnlock
| ESpawn (tid : Z).

(** ** The global state (lines 18-60) *)

(** [struct log_listener] *)
Record log_listener : Type := LogListener {
  fd : Z;
  filter : string -> res bool
}.

(** The enum of line 23. *)
Definition HIDE_EVENT : nat := 0.
Definition LOG_EVENT : nat := 1.
Definition DEBUG_EVENT : nat := 2.

(** The globals [loggable], [thread], [log_events] and [lock], and the
    trace of what has been done so far. *)
Record world : Type := World {
  loggable : Z;
  thread : Z;
  log_events : list log_listener;
  lock : bool;
  trace : list event
}.

Definition log_events_init : list log_listener :=
  [ LogListener (-1) am_proc_start_filter;
    LogListener (-1) magisk_log_filter;
    LogListener (-1) magisk_debug_log_filter ].

(** [sizeof(log_events) / sizeof(struct log_listener)] *)
Definition EVENT_NUM : nat := length log_events_init.

Definition world_init : world :=
  World 1 (-1) log_events_init false [].

(** ** The monad of the embedding *)

(** A call returns a value in a new world, has undefined behaviour, or
    does not return (it waits for the guard, for a byte, for a line or
    for a connection that does not come). *)
Inductive outcome (A : Type) : Type :=
| Done (a : A) (w : world)
| Fault (f : fault) (w : world)
| Stuck (w : world).
Arguments Done {A} a w.
Arguments Fault {A} f w.
Arguments Stuck {A} w.

Definition M (A : Type) : Type := world -> outcome A.

Definition ret {A} (a : A) : M A := fun w => Done a w.

Definition bind {A B} (c : M A) (k : A -> M B) : M B :=
  fun w => match c w with
           | Done a w' => k a w'
           | Fault f w' => Fault f w'
           | Stuck w' => Stuck w'
           end.

Notation "x <- c1 ;; c2" := (bind c1 (fun x => c2))
  (at level 100, c1 at next level, right associativity).
Notation "c1 ;; c2" := (bind c1 (fun _ => c2))
  (at level 100, right associativity).

Definition stuck {A} : M A := fun w => Stuck w.

(** Undefined behaviour. *)
Definition fail {A} (f : fault) : M A := fun w => Fault f w.

(** The world an outcome leaves behind. *)
Definition world_of {A} (o : outcome A) : world :=
  match o with
  | Done _ w => w
  | Fault _ w => w
  | Stuck w => w
  end.

Definition emit (e : event) : M unit :=
  fun w => Done tt (World (loggable w) (thread w) (log_events w) (lock w) (trace w ++ [e])).

Definition get_loggable : M Z := fun w => Done (loggable w) w.

Definition set_loggable (v : Z) : M unit :=
  fun w => Done tt (World v (thread w) (log_events w) (lock w) (trace w)).

Definition get_thread : M Z := fun w => Done (thread w) w.

Definition set_thread (v : Z) : M unit :=
  fun w => Done tt (World (loggable w) v (log_events w) (lock w) (trace w)).

(** [log_events[i].fd] *)
Definition get_fd (i : nat) : M Z :=
  fun w => match log_events w !! i with
           | Some l => Done (fd l) w
           | None => Fault (OutOfBounds (Z.of_nat i)) w
           end.

(** [log_events[i].fd = v] *)
Definition set_fd (i : nat) (v : Z) : M unit :=
  fun w => match log_events w !! i with
           | Some _ =>
               Done tt (World (loggable w) (thread w)
                          (alter (fun l => LogListener v (filter l)) i (log_events w))
                          (lock w) (trace w))
           | None => Fault (OutOfBounds (Z.of_nat i)) w
           end.

(** [log_events[i].filter(line)] *)
Definition call_filter (i : nat) (line : string) : M bool :=
  fun w => match log_events w !! i with
           | Some l => match filter l line with
                       | Ok b => Done b w
                       | Err f => Fault f w
                       end
           | None => Fault (OutOfBounds (Z.of_nat i)) w
           end.

(** [pthread_mutex_lock(&lock)]: waits while the guard is held. *)
Definition pthread_mutex_lock : M unit :=
  fun w => if lock w then Stuck w
           else Done tt (World (loggable w) (thread w) (log_events w) true (trace w ++ [ELock])).

(** [pthread_mutex_unlock(&lock)] *)
Definition pthread_mutex_unlock : M unit :=
  fun w => Done tt (World (loggable w) (thread w) (log_events w) false (trace w ++ [EUnlock])).

(** [for (int i = from; i < from + n; ++i) body(i)] *)
Fixpoint for_each (n : nat) (from : nat) (body : nat -> M unit) : M unit :=
  match n with
  | O => ret tt
  | S n' => body from ;; for_each n' (S from) body
  end.

(** ** The functions of log_monitor.c *)

(** [test_logcat] (lines 63-73). [log_pid] and [log_fd] are what
    [exec_command] answers, [rd] what the one-byte [read] answers. *)
Definition test_logcat (log_pid log_fd : Z) (rd : rres) : M unit :=
  emit (EExec ["logcat"%string] log_pid log_fd) ;;
  emit (ERead log_fd 1) ;;
  match rd with
  | RNever => stuck
  | RRet n =>
      (if negb (n =? 1) then set_loggable 0 else ret tt) ;;
      emit (EKill log_pid SIGTERM) ;;
      emit (EWaitpid log_pid)
  end.

(** [sigpipe_handler] (lines 75-78) *)
Definition sigpipe_handler : M unit :=
  f <- get_fd HIDE_EVENT ;;
  emit (EClose f) ;;
  set_fd HIDE_EVENT (-1).

(** [write(fd, line, len)] issued for listener [i]; the value it returns
    is dropped by the caller. [SIGPIPE] runs the handler installed at
    line 112 in the writing thread, before [write] returns. A write that
    does not return leaves the caller where it is, inside the pass. *)
Definition write_fd (i : nat) (f : Z) (line : string) (len : Z) (r : wres) : M unit :=
  emit (EWrite i f line len) ;;
  match r with
  | WPipe => sigpipe_handler
  | WDone _ => ret tt
  | WFail => ret tt
  | WBlock => stuck
  end.

(** The body of the loop of lines 147-150 for listener [i]. *)
Definition dispatch_slot (line : string) (len : Z) (wr : nat -> wres) (i : nat) : M unit :=
  f <- get_fd i ;;
  if 0 <? f then
    b <- call_filter i line ;;
    if b then write_fd i f line len (wr i) else ret tt
  else ret tt.

(** Lines 147-150: one pass over the listeners for one line. [wr i] is
    what the write issued for listener [i] answers. *)
Definition dispatch (line : string) (len : Z) (wr : nat -> wres) : M unit :=
  for_each EVENT_NUM 0 (dispatch_slot line len wr).

(** Lines 151-155. [tid] is the handle [xpthread_create] stores in
    [thread]; the result tells whether a thread was created. *)
Definition rearm (tid : Z) : M bool :=
  t <- get_thread ;;
  if t <? 0 then
    f <- get_fd HIDE_EVENT ;;
    if f <? 0 then
      set_thread tid ;;
      emit (ESpawn tid) ;;
      ret true
    else ret false
  else ret false.

(** What the environment answers while one line is handled. *)
Record line_in : Type := LineIn {
  text : string;          (* the line [fgets] stores *)
  wr : nat -> wres;       (* the answers of the writes *)
  tid : Z;                (* the handle of a created thread *)
  alive : Z               (* the value of [kill(log_pid, 0)] *)
}.

(** Lines 145-156: the pass under the guard. *)
Definition locked_pass (l : line_in) : M bool :=
  let len := strlen (text l) in
  pthread_mutex_lock ;;
  dispatch (text l) len (wr l) ;;
  b <- rearm (tid l) ;;
  pthread_mutex_unlock ;;
  ret b.

(** Lines 142-159: the loop over the lines of one logcat process.
    [fgets] answers the next line of [ls]; after the last one it answers
    [NULL] when [eof] is set and never answers otherwise. *)
Fixpoint read_lines (log_pid : Z) (eof : bool) (ls : list line_in) : M unit :=
  match ls with
  | [] => if eof then ret tt else stuck
  | l :: rest =>
      if Ascii.eqb (first_char (text l)) "-" then read_lines log_pid eof rest
      else
        locked_pass l ;;
        emit (EKill log_pid 0) ;;
        if negb (alive l =? 0) then ret tt
        else read_lines log_pid eof rest
  end.

(** Lines 127-130 *)
Definition disable_all : M unit :=
  for_each EVENT_NUM 0 (fun i =>
    f <- get_fd i ;;
    emit (EClose f) ;;
    set_fd i (-1)).

(** What the environment answers during one turn of the outer loop. *)
Record run_in : Type := RunIn {
  log_pid : Z;
  log_fd : Z;
  fdopen_ok : bool;       (* whether [fdopen] answers a stream *)
  lines : list line_in;
  eof : bool;
  probe_pid : Z;
  probe_fd : Z;
  probe_read : rres
}.

Definition logcat_argv : list string :=
  [ "/system/bin/logcat"; "-b"; "events"; "-b"; "main"; "-b"; "crash";
    "-v"; "threadtime"; "-s"; "am_proc_start"; "Magisk"; "*:F" ]%string.

(** Lines 124-167: the outer loop. It returns when [loggable] is found
    cleared; with no answers left for a further logcat process the daemon
    is left waiting. The result of [fdopen] (line 141) is not tested:
    when it is [NULL] the [fgets] of line 142 is called on the null
    stream. This is the thread of [log_daemon] on its own; what the
    acceptors it creates do beside it is in [step] below. *)
Fixpoint log_daemon_loop (runs : list run_in) : M unit :=
  g <- get_loggable ;;
  if g =? 0 then disable_all
  else match runs with
       | [] => stuck
       | r :: rest =>
           emit (EExec logcat_argv (log_pid r) (log_fd r)) ;;
           (if fdopen_ok r then read_lines (log_pid r) (eof r) (lines r)
            else fail NullStream) ;;
           emit (EClose (log_fd r)) ;;
           emit (EKill (log_pid r) SIGTERM) ;;
           emit (EWaitpid (log_pid r)) ;;
           test_logcat (probe_pid r) (probe_fd r) (probe_read r) ;;
           log_daemon_loop rest
       end.

(** Lines 116-119: [logfile_fd] and [debug_fd] are what the two [xopen]
    answer, [debug] is [MAGISK_DEBUG]. *)
Definition open_logs (debug : bool) (logfile_fd debug_fd : Z) : M unit :=
  set_fd LOG_EVENT logfile_fd ;;
  (if debug then set_fd DEBUG_EVENT debug_fd else ret tt).

(** [log_daemon] from line 116 on. *)
Definition log_daemon (debug : bool) (logfile_fd debug_fd : Z) (runs : list run_in) : M unit :=
  set_fd LOG_EVENT logfile_fd ;;
  (if debug then set_fd DEBUG_EVENT debug_fd else ret tt) ;;
  log_daemon_loop runs.

(** The write calls of a trace that were issued for listener [i]. *)
Definition slot_writes (i : nat) (tr : list event) : list (Z * string * Z) :=
  omap (fun e => match e with
                 | EWrite j f buf len => if decide (j = i) then Some (f, buf, len) else None
                 | _ => None
                 end) tr.

(** The listener table has the entries the array has. *)
Definition table_ok (w : world) : Prop := length (log_events w) = EVENT_NUM.

(** A write that did not succeed. *)
Definition write_failed (r : wres) : Prop := r = WPipe \/ r = WFail.

Section Acceptor.

(** The request code of a subscriber, an enumerator of daemon.h. *)
Variable HIDE_CONNECT : Z.

(** One turn of the loop of [socket_thread] (lines 83-94) up to the
    release of the guard: [conn] is the descriptor [accept4] answers,
    [code] what [read_int] reads from it. The result tells whether the
    connection was installed. *)
Definition serve (conn code : Z) : M bool :=
  emit (EAccept conn) ;;
  if code =? HIDE_CONNECT then
    pthread_mutex_lock ;;
    set_fd HIDE_EVENT conn ;;
    pthread_mutex_unlock ;;
    ret true
  else
    emit (EClose conn) ;;
    ret false.

(** [socket_thread] (lines 80-96) over the connections that arrive; with
    none left [accept4] does not return. *)
Fixpoint socket_thread (conns : list (Z * Z)) : M unit :=
  match conns with
  | [] => stuck
  | (conn, code) :: rest =>
      installed <- serve conn code ;;
      if installed then set_thread (-1)
      else socket_thread rest
  end.

(** ** The two threads together *)

(** Where an acceptor thread is: in its loop, or past the release of the
    guard and before [thread = -1]. *)
Inductive acceptor_pc : Type :=
| Serving
| Installed.

(** The world, whether the dispatch loop is inside its pass (between
    lines 146 and 156), and the acceptor threads that exist. *)
Record sys : Type := Sys {
  sw : world;
  in_pass : bool;
  acceptors : list acceptor_pc
}.

Definition sys_init : sys := Sys world_init false [].

(** The state in which the dispatch loop is entered: the globals as
    initialised, after the assignments of lines 116-119. *)
Definition sys_started (debug : bool) (logfile_fd debug_fd : Z) : sys :=
  Sys (world_of (open_logs debug logfile_fd debug_fd world_init)) false [].

(** The atomic steps of the threads. The pass of the dispatch loop is cut
    in two ([OpDispatch], [OpRearm]) so that what needs no guard (the
    signal handler, the last assignment of an acceptor) can fall between
    the writes and the test of line 151. *)
Inductive op : Type :=
| OpProbe (pid pfd : Z) (rd : rres)
| OpSigpipe
| OpDisable
| OpDispatch (line : string) (wr : nat -> wres)
| OpRearm (tid : Z)
| OpServe (k : nat) (conn code : Z)
| OpExit (k : nat).

Definition step (s : sys) (o : op) : option sys :=
  match o with
  | OpProbe pid pfd rd =>
      if in_pass s then None
      else match test_logcat pid pfd rd (sw s) with
           | Done _ w' => Some (Sys w' false (acceptors s))
           | _ => None
           end
  | OpSigpipe =>
      match sigpipe_handler (sw s) with
      | Done _ w' => Some (Sys w' (in_pass s) (acceptors s))
      | _ => None
      end
  | OpDisable =>
      if in_pass s then None
      else if negb (loggable (sw s) =? 0) then None
      else match disable_all (sw s) with
           | Done _ w' => Some (Sys w' false (acceptors s))
           | _ => None
           end
  | OpDispatch line wr =>
      if in_pass s then None
      else if Ascii.eqb (first_char line) "-" then None
      else match (pthread_mutex_lock ;; dispatch line (strlen line) wr) (sw s) with
           | Done _ w' => Some (Sys w' true (acceptors s))
           | _ => None
           end
  | OpRearm tid =>
      if negb (in_pass s) then None
      else match (b <- rearm tid ;; pthread_mutex_unlock ;; ret b) (sw s) with
           | Done b w' =>
               Some (Sys w' false (if b : bool then acceptors s ++ [Serving] else acceptors s))
           | _ => None
           end
  | OpServe k conn code =>
      match acceptors s !! k with
      | Some Serving =>
          match serve conn code (sw s) with
          | Done b w' =>
              Some (Sys w' (in_pass s)
                      (if b : bool then <[k := Installed]> (acceptors s) else acceptors s))
          | _ => None
          end
      | _ => None
      end
  | OpExit k =>
      match acceptors s !! k with
      | Some Installed =>
          match set_thread (-1) (sw s) with
          | Done _ w' => Some (Sys w' (in_pass s) (delete k (acceptors s)))
          | _ => None
          end
      | _ => None
      end
  end.

Fixpoint run (s : sys) (os : list op) : option sys :=
  match os with
  | [] => Some s
  | o :: rest => match step s o with
                 | Some s' => run s' rest
                 | None => None
                 end
  end.

(** The handles a schedule hands to [xpthread_create]. *)
Definition tids (os : list op) : list Z :=
  omap (fun o => match o with OpRearm t => Some t | _ => None end) os.

End Acceptor.


(** ** Vocabulary of the statements *)

Definition ok_true (r : res bool) : bool :=
  match r with
  | Ok true => true
  | _ => false
  end.

Definition is_pipe (r : wres) : bool :=
  match r with
  | WPipe => true
  | _ => false
  end.

Definition is_block (r : wres) : bool :=
  match r with
  | WBlock => true
  | _ => false
  end.

(** The table after [log_events[HIDE_EVENT].fd = -1]. *)
Definition clear_hide (tbl : list log_listener) : list log_listener :=
  alter (fun l => LogListener (-1) (filter l)) HIDE_EVENT tbl.

(** Listener [i] of [tbl] has a target ([fd > 0], the test of line 148)
    and its filter answers true on [line]. *)
Definition fires (tbl : list log_listener) (line : string) (i : nat) : bool :=
  match tbl !! i with
  | Some l => (0 <? fd l) && ok_true (filter l line)
  | None => false
  end.

(** The write calls a pass over [tbl] owes listener [i] for [line]. *)
Definition expected_writes (tbl : list log_listener) (line : string) (len : Z) (i : nat)
  : list (Z * string * Z) :=
  match tbl !! i with
  | Some l => if (0 <? fd l) && ok_true (filter l line) then [(fd l, line, len)] else []
  | None => []
  end.

(** What a pass over the listeners leaves behind when it returns. *)
Record pass_post (line : string) (len : Z) (wr : nat -> wres) (from : nat)
    (w w' : world) : Prop := PassPost {
  pp_loggable : loggable w' = loggable w;
  pp_thread : thread w' = thread w;
  pp_lock : lock w' = lock w;
  pp_table : log_events w' = log_events w \/ log_events w' = clear_hide (log_events w);
  pp_cleared : forall i, (from <= i)%nat -> fires (log_events w) line i = true ->
      wr i = WPipe -> log_events w' = clear_hide (log_events w);
  pp_kept : (forall i, (from <= i)%nat -> fires (log_events w) line i = true ->
      wr i <> WPipe) -> log_events w' = log_events w;
  pp_defined : forall i l, (from <= i)%nat -> log_events w !! i = Some l ->
      0 < fd l -> exists b, filter l line = Ok b;
  pp_trace : exists tr, trace w' = trace w ++ tr /\
      (forall i, (from <= i)%nat -> slot_writes i tr = expected_writes (log_events w) line len i) /\
      (forall i, (i < from)%nat -> slot_writes i tr = []) /\
      (forall e, e ∈ tr -> (exists i f, e = EWrite i f line len) \/ (exists f, e = EClose f))
}.

(** The pass of [l] over [tbl] comes to its end: every write returns,
    and the filter of every listener that has a target is defined on the
    line. *)
Definition pass_returns (tbl : list log_listener) (l : line_in) : Prop :=
  (forall i, wr l i <> WBlock) /\
  (forall i ll, tbl !! i = Some ll -> 0 < fd ll -> exists b, filter ll (text l) = Ok b).

(** The world in which the pass of a line runs: the guard taken. *)
Definition guarded (w : world) : world :=
  World (loggable w) (thread w) (log_events w) true (trace w ++ [ELock]).

(** The world after lines 151-156: [b] tells whether a thread was
    created. *)
Definition rearmed (b : bool) (tid : Z) (w : world) : world :=
  World (loggable w) (if b then tid else thread w) (log_events w) false
    (trace w ++ (if b then [ESpawn tid] else []) ++ [EUnlock]).

(** A computation relates every world to the world it leaves behind,
    however it ends. *)
Definition steps (R : world -> world -> Prop) {A} (c : M A) : Prop :=
  forall w, R w (world_of (c w)).

(** The trace only grows, by events that satisfy [P]. *)
Definition extends (P : event -> Prop) (w w' : world) : Prop :=
  exists tr, trace w' = trace w ++ tr /\ Forall P tr.

(** Every write of the event carries [line]. *)
Definition writes_only (line : string) (e : event) : Prop :=
  match e with
  | EWrite _ _ buf _ => buf = line
  | _ => True
  end.

(** Every write of the event carries a line of [ls] that does not start
    with the continuation marker. *)
Definition writes_from (ls : list line_in) (e : event) : Prop :=
  match e with
  | EWrite _ _ buf _ => first_char buf <> "-"%char /\ buf ∈ map text ls
  | _ => True
  end.


(** [loggable], once 0, is 0. *)
Definition stays_disabled (w w' : world) : Prop :=
  loggable w = 0 -> loggable w' = 0.

(** A world of the running daemon: a subscriber on descriptor 7, the
    log file on 8, the debug log on 9, no acceptor thread. *)
Definition subscribed_world : world :=
  World 1 (-1)
    [ LogListener 7 am_proc_start_filter;
      LogListener 8 magisk_log_filter;
      LogListener 9 magisk_debug_log_filter ]
    false [].

(** The answers of the system while a line is handled, every write
    answering [r]. *)
Definition line_with (line : string) (r : wres) : line_in :=
  LineIn line (fun _ => r) 44 0.

(** A component of the world is left as it was. *)
Definition keeps {T} (proj : world -> T) (w w' : world) : Prop := proj w' = proj w.

(** [loggable] changed only if an answer of a probe among [runs] was not
    one byte. *)
Definition changed_by_probe (runs : list run_in) (w w' : world) : Prop :=
  loggable w' = loggable w \/
  exists r n, r ∈ runs /\ probe_read r = RRet n /\ n <> 1.

(** Every listener of the table is without target. *)
Definition all_absent (w : world) : Prop :=
  forall l, l ∈ log_events w -> fd l = -1.

(** The table after [log_events[HIDE_EVENT].fd = conn]. *)
Definition install_hide (conn : Z) (tbl : list log_listener) : list log_listener :=
  alter (fun l => LogListener conn (filter l)) HIDE_EVENT tbl.


(** The guard is held exactly while the dispatch loop is inside its
    pass, and [thread] is a handle exactly while an acceptor exists, of
    which there is then one. *)
Definition sys_inv (s : sys) : Prop :=
  lock (sw s) = in_pass s /\
  ((acceptors s = [] /\ thread (sw s) < 0) \/
   (exists a, acceptors s = [a] /\ 0 <= thread (sw s))).

(** A schedule in which an acceptor is created, turns a request away,
    registers a subscriber and ends. *)
Definition sample_schedule : list op :=
  [ OpDispatch "I am_proc_start: [0,1234,10012,com.example]" (fun _ => WDone 44);
    OpRearm 5;
    OpServe 0 20 0;
    OpServe 0 21 12;
    OpExit 0;
    OpDispatch "I am_proc_start: [0,1240,10013,com.other]" (fun _ => WPipe);
    OpRearm 6 ].

(** Lines as logcat prints them with [-v threadtime]. *)
Definition info_line : string :=
  "01-01 00:00:07.123  2312  2312 I Magisk  : ** post-fs-data mode running".
Definition debug_line : string :=
  "01-01 00:00:07.456  2312  2312 D Magisk  : resetprop: getprop [ro.build.id]".
Definition start_line : string :=
  "01-01 00:01:02.000   812   830 I am_proc_start: [0,4321,10085,com.android.vending,activity]".
Definition marker_line : string :=
  "--------- beginning of main".
Definition bare_line : string :=
  " Magisk  : line with no priority before the tag".
Definition marker_free_line : string :=
  "01-01 00:00:09.000  2312  2312 W Magisk  : su: request rejected".

(** Two thread handles of a 32-bit system, where [pthread_t] is a
    [long] holding an address: 0xB6E00000 and 0xB6E7F000, both negative
    as a [long]. *)
Definition high_handle : Z := 3068133376 - 2 ^ 32.
Definition high_handle' : Z := 3068653568 - 2 ^ 32.

(** Two lines are handled while no subscriber connects; the threads
    created get the two handles above. *)
Definition first_pass : list op :=
  [ OpDispatch info_line (fun _ => WDone (strlen info_line)); OpRearm high_handle ].

Definition second_pass : list op :=
  [ OpDispatch marker_free_line (fun _ => WDone (strlen marker_free_line));
    OpRearm high_handle' ].

(** ** The entry point of the main daemon (lines 170-179) *)

(** The calls [monitor_logs] makes on the control socket of the log
    daemon, in the order it makes them. *)
Inductive ipc_call : Type :=
| Connect (conn : Z)
| WriteInt (conn code : Z).

Section Bootstrap.

(** The request code that asks for nothing, an enumerator of daemon.h. *)
Variable DO_NOTHING : Z.

(** [monitor_logs]: [pid], [pfd] and [rd] are the answers to the probe,
    [conn] is the descriptor [connect_daemon2] stores. The result lists
    the calls made on the control socket; the [close] is in the trace. *)
Definition monitor_logs (pid pfd : Z) (rd : rres) (conn : Z) : M (list ipc_call) :=
  test_logcat pid pfd rd ;;
  g <- get_loggable ;;
  if negb (g =? 0) then
    emit (EClose conn) ;;
    ret [Connect conn; WriteInt conn DO_NOTHING]
  else ret [].

End Bootstrap.

(** ** Vocabulary of the further statements *)

(** The line begins with the tag of the daemon. *)
Definition begins_with_tag (line : string) : Prop :=
  exists rest, line = " Magisk" +:+ rest.

(** The table holds the three filters of lines 47-60, in their places. *)
Definition standard_filters (w : world) : Prop :=
  map filter (log_events w) = map filter log_events_init.

(** Listener [i] has no target for the test of line 148. *)
Definition no_target (i : nat) (w : world) : Prop :=
  forall l, log_events w !! i = Some l -> fd l <= 0.

(** A listener without target keeps none and is handed no write. *)
Definition stays_silent (i : nat) (w w' : world) : Prop :=
  no_target i w ->
  no_target i w' /\
  exists tr, trace w' = trace w ++ tr /\ slot_writes i tr = [].

(** The events that start, terminate or reap a child ([kill] with signal
    0 only asks whether the child is there). *)
Definition is_proc_event (e : event) : bool :=
  match e with
  | EExec _ _ _ => true
  | EKill _ sig => negb (sig =? 0)
  | EWaitpid _ => true
  | _ => false
  end.

Definition proc_events (tr : list event) : list event :=
  List.filter is_proc_event tr.

(** What one turn of the outer loop does to its children. *)
Definition turn_events (r : run_in) : list event :=
  [ EExec logcat_argv (log_pid r) (log_fd r);
    EKill (log_pid r) SIGTERM;
    EWaitpid (log_pid r);
    EExec ["logcat"%string] (probe_pid r) (probe_fd r);
    EKill (probe_pid r) SIGTERM;
    EWaitpid (probe_pid r) ].

(** A world in which descriptor 0 was stored as the subscriber. *)
Definition zero_world : world :=
  World 1 (-1)
    [ LogListener 0 am_proc_start_filter;
      LogListener 8 magisk_log_filter;
      LogListener (-1) magisk_debug_log_filter ]
    false [].

(** One turn of the outer loop: the producer prints [line] and ends, the
    probe that follows reads [n] bytes. *)
Definition one_turn (line : string) (n : Z) : run_in :=
  RunIn 100 3 true [line_with line (WDone 1)] true 101 4 (RRet n).

(** A line after which [kill(log_pid, 0)] finds the producer gone. *)
Definition last_line : line_in := LineIn info_line (fun _ => WDone 71) 44 1.

(** The lines of a stream that reach the pass of lines 145-156: those
    that do not start with the continuation marker, up to the first one
    after which the producer is found gone. *)
Fixpoint dispatched (ls : list line_in) : list line_in :=
  match ls with
  | [] => []
  | l :: rest =>
      if Ascii.eqb (first_char (text l)) "-" then dispatched rest
      else l :: (if negb (alive l =? 0) then [] else dispatched rest)
  end.
(** * Properties *)

(** ** Strings *)

Lemma prefix_split (n h : string) :
  String.prefix n h = true <-> exists post, h = n +:+ post.
Proof.
  revert h. induction n as [|a n IH]; intros h.
  - destruct h; simpl; split; eauto.
  - destruct h as [|b h]; simpl.
    + split; [discriminate | intros [post Hp]; discriminate].
    + destruct (ascii_dec a b) as [->|Hab].
      * rewrite IH. split; intros [post Hp]; exists post.
        -- now rewrite Hp.
        -- now inversion Hp.
      * split; [discriminate | intros [post Hp]; inversion Hp; congruence].
Qed.

Lemma occurs_at_0 (n h : string) :
  occurs_at n h 0 <-> String.prefix n h = true.
Proof.
  rewrite prefix_split. split.
  - intros (pre & post & -> & Hl). destruct pre; [|discriminate].
    now exists post.
  - intros [post ->]. now exists EmptyString, post.
Qed.

Lemma occurs_at_S (n : string) (c : ascii) (h : string) (i : nat) :
  occurs_at n (String c h) (S i) <-> occurs_at n h i.
Proof.
  split.
  - intros (pre & post & Hh & Hl). destruct pre as [|c' pre]; [discriminate|].
    simpl in Hh, Hl. inversion Hh; subst. exists pre, post. split; [reflexivity | lia].
  - intros (pre & post & -> & Hl). exists (String c pre), post.
    split; [reflexivity | simpl; lia].
Qed.

Lemma occurs_at_empty (n : string) (i : nat) :
  occurs_at n EmptyString i -> i = 0%nat.
Proof.
  intros (pre & post & Hh & Hl). destruct pre; [now subst | discriminate].
Qed.

Lemma occurs_at_get (n h : string) (i : nat) :
  occurs_at n h (S i) -> exists c, String.get i h = Some c.
Proof.
  revert h. induction i as [|i IH]; intros h Ho.
  - destruct h as [|c h]; [apply occurs_at_empty in Ho; discriminate|].
    now exists c.
  - destruct h as [|c h]; [apply occurs_at_empty in Ho; discriminate|].
    apply occurs_at_S in Ho. simpl. now apply IH.
Qed.

Lemma strstr_nil (n : string) :
  strstr "" n = if String.prefix n "" then Some 0%nat else None.
Proof. reflexivity. Qed.

Lemma strstr_cons (c : ascii) (h n : string) :
  strstr (String c h) n =
    if String.prefix n (String c h) then Some 0%nat else S <$> strstr h n.
Proof. reflexivity. Qed.

Lemma strstr_Some (h n : string) (i : nat) :
  strstr h n = Some i -> first_occurrence n h i.
Proof.
  revert i. induction h as [|c h IH]; intros i;
    [rewrite strstr_nil | rewrite strstr_cons].
  - destruct (String.prefix n "") eqn:Hp; [|discriminate].
    intros [= <-]. split; [now apply occurs_at_0 | intros j Hj; lia].
  - destruct (String.prefix n (String c h)) eqn:Hp.
    + intros [= <-]. split; [now apply occurs_at_0 | intros j Hj; lia].
    + destruct (strstr h n) as [k|]; [|discriminate].
      intros [= <-]. destruct (IH k eq_refl) as [Hk Hmin]. split.
      * now apply occurs_at_S.
      * intros [|j] Hj Ho.
        -- apply occurs_at_0 in Ho. congruence.
        -- apply occurs_at_S in Ho. apply (Hmin j); [lia | assumption].
Qed.

Lemma strstr_None (h n : string) :
  strstr h n = None -> ~ contains n h.
Proof.
  induction h as [|c h IH]; [rewrite strstr_nil | rewrite strstr_cons].
  - destruct (String.prefix n "") eqn:Hp; [discriminate|].
    intros _ [i Ho]. pose proof (occurs_at_empty _ _ Ho) as ->.
    apply occurs_at_0 in Ho. congruence.
  - destruct (String.prefix n (String c h)) eqn:Hp; [discriminate|].
    destruct (strstr h n) as [k|]; [discriminate|].
    intros _ [[|i] Ho].
    + apply occurs_at_0 in Ho. congruence.
    + apply occurs_at_S in Ho. apply IH; [reflexivity | now exists i].
Qed.

Lemma first_occurrence_unique (n h : string) (i j : nat) :
  first_occurrence n h i -> first_occurrence n h j -> i = j.
Proof.
  intros [Hi Hmi] [Hj Hmj].
  destruct (Nat.lt_trichotomy i j) as [Hlt|[Heq|Hgt]]; [|assumption|].
  - exfalso. now apply (Hmj i).
  - exfalso. now apply (Hmi j).
Qed.

Lemma strstr_first (h n : string) (i : nat) :
  strstr h n = Some i <-> first_occurrence n h i.
Proof.
  split; [apply strstr_Some|].
  intros Hf. destruct (strstr h n) as [j|] eqn:Hs.
  - apply strstr_Some in Hs. f_equal. eapply first_occurrence_unique; eauto.
  - exfalso. apply (strstr_None _ _ Hs). exists i. apply Hf.
Qed.

Lemma strstr_contains (h n : string) :
  not_null (strstr h n) = true <-> contains n h.
Proof.
  destruct (strstr h n) as [i|] eqn:Hs; simpl.
  - split; [|reflexivity]. intros _. exists i. now apply strstr_Some in Hs as [? _].
  - split; [discriminate|]. intros Hc. exfalso. now apply (strstr_None _ _ Hs).
Qed.

Lemma load_get (s : string) (i : nat) (c : ascii) :
  String.get i s = Some c -> load s (Z.of_nat i) = Ok c.
Proof.
  intros Hg. unfold load.
  destruct (Z.ltb_spec (Z.of_nat i) 0) as [Hlt|_]; [lia|].
  now rewrite Nat2Z.id, Hg.
Qed.

Lemma load_before (s : string) (idx : Z) :
  idx < 0 -> load s idx = Err (OutOfBounds idx).
Proof.
  intros Hlt. unfold load.
  destruct (Z.ltb_spec idx 0) as [_|Hge]; [reflexivity | lia].
Qed.

(** The value of the persist filter when [strstr] finds the tag at
    offset [i]. *)
Lemma magisk_log_filter_at (log : string) (i : nat) :
  strstr log " Magisk" = Some i ->
  magisk_log_filter log =
    res_bind (load log (Z.of_nat i + -1)) (fun c =>
      Ok (negb (Ascii.eqb c "D") && negb (Ascii.eqb c "V"))).
Proof.
  intros Hs. unfold magisk_log_filter. rewrite Hs. simpl.
  destruct (load log (Z.of_nat i + -1)) as [c|f]; simpl; [|reflexivity].
  now destruct (Ascii.eqb c "D").
Qed.

(** ** The filters *)

(** C7: the persist filter answers true exactly for the lines that
    contain the tag " Magisk" and whose character just before its first
    occurrence, the one [strstr] finds, exists and is neither 'D' nor
    'V'. (A line that starts with the tag has no such character: the
    filter then has no defined answer, see C10.) *)
Theorem magisk_log_filter_true_iff (log : string) :
  magisk_log_filter log = Ok true <->
  exists (i : nat) (c : ascii),
    first_occurrence " Magisk" log i /\
    (0 < i)%nat /\
    String.get (i - 1) log = Some c /\
    c <> "D"%char /\ c <> "V"%char.
Proof.
  split.
  - intros Hf. destruct (strstr log " Magisk") as [i|] eqn:Hs.
    + rewrite (magisk_log_filter_at _ _ Hs) in Hf.
      destruct i as [|k].
      * rewrite load_before in Hf by lia. discriminate.
      * pose proof (strstr_Some _ _ _ Hs) as Hfo.
        destruct (occurs_at_get _ _ _ (proj1 Hfo)) as [c Hc].
        replace (Z.of_nat (S k) + -1) with (Z.of_nat k) in Hf by lia.
        rewrite (load_get _ _ _ Hc) in Hf. simpl in Hf.
        injection Hf as Hf. apply andb_true_iff in Hf as [HD HV].
        apply negb_true_iff in HD, HV.
        exists (S k), c. replace (S k - 1)%nat with k by lia.
        repeat split; try apply Hfo; try lia; try assumption.
        -- now apply Ascii.eqb_neq.
        -- now apply Ascii.eqb_neq.
    + unfold magisk_log_filter in Hf. rewrite Hs in Hf. discriminate.
  - intros (i & c & Hfo & Hpos & Hc & HD & HV).
    apply strstr_first in Hfo. rewrite (magisk_log_filter_at _ _ Hfo).
    replace (Z.of_nat i + -1) with (Z.of_nat (i - 1)) by lia.
    rewrite (load_get _ _ _ Hc). simpl.
    apply Ascii.eqb_neq in HD, HV. now rewrite HD, HV.
Qed.

(** C8: on every line the debug filter is the complement of the hide
    filter: both always answer, the debug filter answers true exactly
    when the hide filter answers false, and the hide filter answers true
    exactly when the line contains "am_proc_start". *)
Theorem debug_filter_complements_hide (log : string) :
  (magisk_debug_log_filter log = Ok true <-> am_proc_start_filter log = Ok false) /\
  (magisk_debug_log_filter log = Ok false <-> am_proc_start_filter log = Ok true) /\
  (exists b, am_proc_start_filter log = Ok b /\ magisk_debug_log_filter log = Ok (negb b)) /\
  (am_proc_start_filter log = Ok true <-> contains "am_proc_start" log).
Proof.
  unfold magisk_debug_log_filter, am_proc_start_filter.
  pose proof (strstr_contains log "am_proc_start") as Hc.
  destruct (strstr log "am_proc_start") as [i|]; simpl in *.
  - repeat split; try congruence; try (intros _; now apply Hc).
    now exists true.
  - repeat split; try congruence.
    + now exists false.
    + intros Hx. apply Hc in Hx. discriminate.
Qed.

(** C10: when the tag " Magisk" first occurs at offset [i], the persist
    filter loads the character at offset [i - 1] and its answer is
    decided by that load. The load is inside the line exactly when
    [1 <= i]; on every line that begins with the tag the offset is [-1],
    before the start of the string. *)
Theorem magisk_log_filter_reads_before_tag (log : string) (i : nat) :
  first_occurrence " Magisk" log i ->
  magisk_log_filter log =
    res_bind (load log (Z.of_nat i - 1)) (fun c =>
      Ok (negb (Ascii.eqb c "D") && negb (Ascii.eqb c "V"))) /\
  ((1 <= i)%nat ->
     exists c, String.get (i - 1) log = Some c /\
               load log (Z.of_nat i - 1) = Ok c /\
               magisk_log_filter log = Ok (negb (Ascii.eqb c "D") && negb (Ascii.eqb c "V"))) /\
  (i = 0%nat ->
     load log (Z.of_nat i - 1) = Err (OutOfBounds (-1)) /\
     magisk_log_filter log = Err (OutOfBounds (-1))) /\
  (forall rest : string,
     magisk_log_filter (" Magisk" +:+ rest) = Err (OutOfBounds (-1))).
Proof.
  intros Hfo. pose proof Hfo as Hs. apply strstr_first in Hs.
  pose proof (magisk_log_filter_at _ _ Hs) as Heq.
  replace (Z.of_nat i + -1) with (Z.of_nat i - 1) in Heq by lia.
  split; [exact Heq|]. split; [|split].
  - intros Hi. destruct i as [|k]; [lia|].
    destruct (occurs_at_get _ _ _ (proj1 Hfo)) as [c Hc].
    exists c. replace (S k - 1)%nat with k by lia.
    replace (Z.of_nat (S k) - 1) with (Z.of_nat k) in * by lia.
    pose proof (load_get _ _ _ Hc) as Hl.
    split; [assumption|]. split; [assumption|].
    now rewrite Heq, Hl.
  - intros ->. simpl in *. rewrite Heq.
    now rewrite load_before by lia.
  - intros rest.
    assert (Hp : String.prefix " Magisk" (" Magisk" +:+ rest) = true)
      by (apply prefix_split; now exists rest).
    assert (H0 : strstr (" Magisk" +:+ rest) " Magisk" = Some 0%nat)
      by (change (" Magisk" +:+ rest) with (String " " ("Magisk" +:+ rest)) in *;
          rewrite strstr_cons; now rewrite Hp).
    rewrite (magisk_log_filter_at _ _ H0).
    now rewrite load_before by lia.
Qed.

(** ** The monad *)

Lemma bind_Done_inv {A B} (c : M A) (k : A -> M B) (w w' : world) (b : B) :
  bind c k w = Done b w' -> exists a w1, c w = Done a w1 /\ k a w1 = Done b w'.
Proof.
  unfold bind. destruct (c w) as [a w1|f w1|w1]; try discriminate.
  intros H. now exists a, w1.
Qed.


(** ** The listener table *)

Lemma table_lookup (w : world) (i : nat) :
  table_ok w -> (i < EVENT_NUM)%nat -> exists l, log_events w !! i = Some l.
Proof.
  intros Hok Hi. apply lookup_lt_is_Some_2. unfold table_ok in Hok. lia.
Qed.

Lemma clear_hide_length (tbl : list log_listener) :
  length (clear_hide tbl) = length tbl.
Proof. apply length_alter. Qed.

Lemma clear_hide_other (tbl : list log_listener) (i : nat) :
  i <> HIDE_EVENT -> clear_hide tbl !! i = tbl !! i.
Proof. intros Hi. apply list_lookup_alter_ne. congruence. Qed.

Lemma clear_hide_hide (tbl : list log_listener) (h : log_listener) :
  tbl !! HIDE_EVENT = Some h ->
  clear_hide tbl !! HIDE_EVENT = Some (LogListener (-1) (filter h)).
Proof. intros Hh. unfold clear_hide. now rewrite list_lookup_alter_eq, Hh. Qed.

Lemma clear_hide_idem (tbl : list log_listener) :
  clear_hide (clear_hide tbl) = clear_hide tbl.
Proof. destruct tbl as [|h tbl]; reflexivity. Qed.

Lemma slot_writes_app (i : nat) (t1 t2 : list event) :
  slot_writes i (t1 ++ t2) = slot_writes i t1 ++ slot_writes i t2.
Proof. apply omap_app. Qed.

(** ** The signal handler and one listener of the pass *)

Lemma sigpipe_handler_eq (w : world) (h : log_listener) :
  log_events w !! HIDE_EVENT = Some h ->
  sigpipe_handler w =
    Done tt (World (loggable w) (thread w) (clear_hide (log_events w)) (lock w)
               (trace w ++ [EClose (fd h)])).
Proof.
  intros Hh. unfold sigpipe_handler, bind, get_fd, emit, set_fd. simpl.
  rewrite Hh. simpl. now rewrite Hh.
Qed.

(** What the body of the loop of lines 147-150 does for listener [i]. *)
Lemma dispatch_slot_eq (line : string) (len : Z) (wr : nat -> wres) (i : nat)
    (w : world) (l h : log_listener) :
  log_events w !! i = Some l ->
  log_events w !! HIDE_EVENT = Some h ->
  dispatch_slot line len wr i w =
    if 0 <? fd l then
      match filter l line with
      | Ok true =>
          if is_block (wr i) then
            Stuck (World (loggable w) (thread w) (log_events w) (lock w)
                     (trace w ++ [EWrite i (fd l) line len]))
          else
            Done tt (World (loggable w) (thread w)
                       (if is_pipe (wr i) then clear_hide (log_events w) else log_events w)
                       (lock w)
                       (trace w ++ EWrite i (fd l) line len ::
                          (if is_pipe (wr i) then [EClose (fd h)] else [])))
      | Ok false => Done tt w
      | Err f => Fault f w
      end
    else Done tt w.
Proof.
  intros Hl Hh. unfold dispatch_slot. unfold bind at 1. unfold get_fd.
  rewrite Hl. cbn beta iota.
  destruct (0 <? fd l); [|reflexivity].
  unfold bind at 1. unfold call_filter. rewrite Hl.
  destruct (filter l line) as [[|]|f]; cbn beta iota; try reflexivity.
  unfold write_fd, bind, emit.
  destruct (wr i); cbn [is_pipe is_block]; try reflexivity.
  rewrite (sigpipe_handler_eq _ h) by exact Hh. cbn [loggable thread log_events lock trace].
  now rewrite <- app_assoc.
Qed.

Lemma is_pipe_false (r : wres) : is_pipe r = false <-> r <> WPipe.
Proof. destruct r; simpl; split; congruence. Qed.

Lemma is_pipe_true (r : wres) : is_pipe r = true <-> r = WPipe.
Proof. destruct r; simpl; split; congruence. Qed.

Lemma is_block_true (r : wres) : is_block r = true <-> r = WBlock.
Proof. destruct r; simpl; split; congruence. Qed.

Lemma slot_writes_write (i j : nat) (f : Z) (buf : string) (len : Z) (tr : list event) :
  slot_writes i (EWrite j f buf len :: tr) =
    if decide (j = i) then (f, buf, len) :: slot_writes i tr else slot_writes i tr.
Proof. unfold slot_writes. simpl. now destruct (decide (j = i)). Qed.

Lemma maybe_cleared_other (tbl tbl2 : list log_listener) (i : nat) :
  tbl2 = tbl \/ tbl2 = clear_hide tbl -> i <> HIDE_EVENT -> tbl2 !! i = tbl !! i.
Proof. intros [->| ->] Hi; [reflexivity | now apply clear_hide_other]. Qed.

Lemma maybe_cleared_clear (tbl tbl2 : list log_listener) :
  tbl2 = tbl \/ tbl2 = clear_hide tbl -> clear_hide tbl2 = clear_hide tbl.
Proof. intros [->| ->]; [reflexivity | apply clear_hide_idem]. Qed.

Lemma fires_expected (tbl : list log_listener) (line : string) (len : Z) (i : nat) :
  fires tbl line i = false -> expected_writes tbl line len i = [].
Proof.
  unfold fires, expected_writes. destruct (tbl !! i) as [l|]; [|reflexivity].
  now intros ->.
Qed.

Lemma fires_lookup (tbl tbl2 : list log_listener) (line : string) (i : nat) :
  tbl2 !! i = tbl !! i -> fires tbl2 line i = fires tbl line i.
Proof. unfold fires. now intros ->. Qed.

Lemma expected_lookup (tbl tbl2 : list log_listener) (line : string) (len : Z) (i : nat) :
  tbl2 !! i = tbl !! i -> expected_writes tbl2 line len i = expected_writes tbl line len i.
Proof. unfold expected_writes. now intros ->. Qed.

(** The pass with no listener left to visit. *)
Lemma pass_post_refl (line : string) (len : Z) (wr : nat -> wres) (w : world) :
  table_ok w -> pass_post line len wr EVENT_NUM w w.
Proof.
  intros Hok.
  assert (Hnone : forall i, (EVENT_NUM <= i)%nat -> log_events w !! i = None).
  { intros i Hi. apply lookup_ge_None_2. unfold table_ok in Hok. lia. }
  constructor; try reflexivity; try (now left).
  - intros i Hi Hf. unfold fires in Hf. now rewrite (Hnone i Hi) in Hf.
  - intros i l Hi Hl. now rewrite (Hnone i Hi) in Hl.
  - exists []. rewrite app_nil_r. repeat split; try reflexivity.
    + intros i Hi. unfold expected_writes. now rewrite (Hnone i Hi).
    + intros e He. inversion He.
Qed.

(** A listener that does not fire is passed over. *)
Lemma pass_post_skip (line : string) (len : Z) (wr : nat -> wres) (from : nat)
    (w w' : world) (l : log_listener) :
  log_events w !! from = Some l ->
  (0 <? fd l) && ok_true (filter l line) = false ->
  (0 < fd l -> exists b, filter l line = Ok b) ->
  pass_post line len wr (S from) w w' ->
  pass_post line len wr from w w'.
Proof.
  intros Hl Hno Hdef [H1 H2 H3 H4 H5 H6 H7 (tr & Htr & Hw & Hlow & Hev)].
  assert (Hnf : fires (log_events w) line from = false)
    by (unfold fires; now rewrite Hl).
  constructor; try assumption.
  - intros i Hi Hf Hp. destruct (decide (i = from)) as [->|Hne]; [congruence|].
    apply (H5 i); [lia | assumption | assumption].
  - intros Hall. apply H6. intros i Hi. apply Hall. lia.
  - intros i l' Hi Hl'. destruct (decide (i = from)) as [->|Hne].
    + rewrite Hl in Hl'. injection Hl' as <-. exact Hdef.
    + apply (H7 i); [lia | assumption].
  - exists tr. split; [assumption|]. split; [|split].
    + intros i Hi. destruct (decide (i = from)) as [->|Hne].
      * rewrite (fires_expected _ _ _ _ Hnf). apply Hlow. lia.
      * apply Hw. lia.
    + intros i Hi. apply Hlow. lia.
    + assumption.
Qed.

(** A listener that fires gets its write; a broken pipe clears the hide
    listener on the way. *)
Lemma pass_post_write (line : string) (len : Z) (wr : nat -> wres) (from : nat)
    (w w' : world) (l h : log_listener) :
  log_events w !! from = Some l ->
  (0 <? fd l) && ok_true (filter l line) = true ->
  pass_post line len wr (S from)
    (World (loggable w) (thread w)
       (if is_pipe (wr from) then clear_hide (log_events w) else log_events w)
       (lock w)
       (trace w ++ EWrite from (fd l) line len ::
          (if is_pipe (wr from) then [EClose (fd h)] else []))) w' ->
  pass_post line len wr from w w'.
Proof.
  intros Hl Hyes [H1 H2 H3 H4 H5 H6 H7 (tr & Htr & Hw & Hlow & Hev)].
  cbn [loggable thread log_events lock trace] in *.
  pose (tbl := log_events w).
  set (tbl2 := if is_pipe (wr from) then clear_hide (log_events w) else log_events w) in *.
  change (log_events w) with tbl in Hl.
  assert (Hmc : tbl2 = tbl \/ tbl2 = clear_hide tbl)
    by (unfold tbl2; destruct (is_pipe (wr from)); auto).
  assert (Hoth : forall i, (from < i)%nat -> tbl2 !! i = tbl !! i).
  { intros i Hi. apply maybe_cleared_other; [assumption|]. unfold HIDE_EVENT. lia. }
  assert (Hfires : fires tbl line from = true)
    by (unfold fires; now rewrite Hl).
  apply andb_true_iff in Hyes as [Hpos Htrue].
  constructor; try assumption; fold tbl.
  - destruct H4 as [-> | ->]; [assumption|].
    right. now apply maybe_cleared_clear.
  - intros i Hi Hf Hp. destruct (decide (i = from)) as [->|Hne].
    + apply is_pipe_true in Hp. unfold tbl2 in *. rewrite Hp in *.
      destruct H4 as [-> | ->]; [reflexivity | apply clear_hide_idem].
    + rewrite (H5 i); [now apply maybe_cleared_clear | lia | | assumption].
      rewrite (fires_lookup tbl); [assumption | apply Hoth; lia].
  - intros Hall.
    assert (Hnp : is_pipe (wr from) = false).
    { apply is_pipe_false. apply Hall; [lia | assumption]. }
    assert (Heq : tbl2 = tbl) by (unfold tbl2; now rewrite Hnp).
    rewrite H6; [assumption|].
    intros i Hi Hf. apply Hall; [lia|].
    rewrite <- (fires_lookup tbl tbl2); [assumption | now rewrite Heq].
  - intros i l' Hi Hl'. destruct (decide (i = from)) as [->|Hne].
    + rewrite Hl in Hl'. injection Hl' as <-. intros _.
      destruct (filter l line) as [[|]|f]; try discriminate. now exists true.
    + apply (H7 i); [lia|]. rewrite Hoth; [assumption | lia].
  - exists (EWrite from (fd l) line len ::
              (if is_pipe (wr from) then [EClose (fd h)] else []) ++ tr).
    split; [|split; [|split]].
    + rewrite Htr. rewrite <- app_assoc. reflexivity.
    + intros i Hi. rewrite slot_writes_write, slot_writes_app.
      assert (Hcl : slot_writes i (if is_pipe (wr from) then [EClose (fd h)] else []) = [])
        by (now destruct (is_pipe (wr from))).
      rewrite Hcl. cbn [app].
      destruct (decide (from = i)) as [<-|Hne].
      * rewrite Hlow by lia. unfold expected_writes. rewrite Hl, Hpos, Htrue. reflexivity.
      * rewrite Hw by lia. apply expected_lookup. apply Hoth. lia.
    + intros i Hi. rewrite slot_writes_write, slot_writes_app.
      destruct (decide (from = i)) as [->|Hne]; [lia|].
      rewrite Hlow by lia.
      now destruct (is_pipe (wr from)).
    + intros e He. apply elem_of_cons in He as [->|He].
      * left. now exists from, (fd l).
      * apply elem_of_app in He as [He|He]; [|now apply Hev].
        destruct (is_pipe (wr from)); [|inversion He].
        apply list_elem_of_singleton in He as ->. right. now exists (fd h).
Qed.

(** The loop of lines 147-150 from listener [from] on: it returns with
    every listener served as its filter says, or stops at the filter that
    has no defined answer, or stays in the write that does not return. *)
Lemma dispatch_from (line : string) (len : Z) (wr : nat -> wres) (n : nat) :
  forall (from : nat) (w : world),
    (from + n = EVENT_NUM)%nat ->
    table_ok w ->
    match for_each n from (dispatch_slot line len wr) w with
    | Done _ w' => pass_post line len wr from w w'
    | Fault f _ =>
        exists i l, (from <= i)%nat /\ log_events w !! i = Some l /\
                    0 < fd l /\ filter l line = Err f
    | Stuck _ =>
        exists i l, (from <= i)%nat /\ log_events w !! i = Some l /\
                    0 < fd l /\ filter l line = Ok true /\ wr i = WBlock
    end.
Proof.
  induction n as [|n IH]; intros from w Hn Hok.
  - simpl. replace from with EVENT_NUM by lia. now apply pass_post_refl.
  - assert (Hfrom : (from < EVENT_NUM)%nat) by lia.
    destruct (table_lookup w from Hok Hfrom) as [l Hl].
    destruct (table_lookup w HIDE_EVENT Hok) as [h Hh];
      [unfold HIDE_EVENT, EVENT_NUM; simpl; lia|].
    cbn [for_each]. unfold bind at 1.
    rewrite (dispatch_slot_eq line len wr from w l h Hl Hh).
    destruct (0 <? fd l) eqn:Hpos.
    + destruct (filter l line) as [[|]|f] eqn:Hf.
      * destruct (is_block (wr from)) eqn:Hblk.
        { apply is_block_true in Hblk. exists from, l.
          repeat split; try assumption; lia. }
        match goal with |- context [for_each n (S from) _ ?w2] =>
          specialize (IH (S from) w2) end.
        assert (Hok2 : table_ok
          (World (loggable w) (thread w)
             (if is_pipe (wr from) then clear_hide (log_events w) else log_events w)
             (lock w)
             (trace w ++ EWrite from (fd l) line len ::
                (if is_pipe (wr from) then [EClose (fd h)] else [])))).
        { unfold table_ok in *. cbn [log_events].
          destruct (is_pipe (wr from)); [now rewrite clear_hide_length | assumption]. }
        specialize (IH ltac:(lia) Hok2).
        destruct (for_each n (S from) (dispatch_slot line len wr) _) as [[] w'|f w'|w'].
        -- apply (pass_post_write line len wr from w w' l h Hl); [|exact IH].
           now rewrite Hpos, Hf.
        -- destruct IH as (i & l' & Hi & Hl' & Hp' & Hf').
           cbn [log_events] in Hl'.
           exists i, l'. repeat split; try assumption; try lia.
           rewrite <- Hl'. symmetry. apply maybe_cleared_other.
           ++ destruct (is_pipe (wr from)); auto.
           ++ unfold HIDE_EVENT. lia.
        -- destruct IH as (i & l' & Hi & Hl' & Hp' & Hf' & Hb').
           cbn [log_events] in Hl'.
           exists i, l'. repeat split; try assumption; try lia.
           rewrite <- Hl'. symmetry. apply maybe_cleared_other.
           ++ destruct (is_pipe (wr from)); auto.
           ++ unfold HIDE_EVENT. lia.
      * specialize (IH (S from) w ltac:(lia) Hok).
        destruct (for_each n (S from) (dispatch_slot line len wr) w) as [[] w'|f w'|w'].
        -- apply (pass_post_skip line len wr from w w' l Hl); [| |exact IH].
           ++ now rewrite Hpos, Hf.
           ++ intros _. now exists false.
        -- destruct IH as (i & l' & Hi & Hl' & Hp' & Hf').
           exists i, l'. repeat split; try assumption; lia.
        -- destruct IH as (i & l' & Hi & Hl' & Hp' & Hf' & Hb').
           exists i, l'. repeat split; try assumption; lia.
      * exists from, l. repeat split; try assumption; lia.
    + specialize (IH (S from) w ltac:(lia) Hok).
      destruct (for_each n (S from) (dispatch_slot line len wr) w) as [[] w'|f w'|w'].
      * apply (pass_post_skip line len wr from w w' l Hl); [| |exact IH].
        -- now rewrite Hpos.
        -- intros Hp. apply Z.ltb_ge in Hpos. lia.
      * destruct IH as (i & l' & Hi & Hl' & Hp' & Hf').
        exists i, l'. repeat split; try assumption; lia.
      * destruct IH as (i & l' & Hi & Hl' & Hp' & Hf' & Hb').
        exists i, l'. repeat split; try assumption; lia.
Qed.

(** The whole loop of lines 147-150. *)
Lemma dispatch_spec (line : string) (len : Z) (wr : nat -> wres) (w : world) :
  table_ok w ->
  match dispatch line len wr w with
  | Done _ w' => pass_post line len wr 0 w w'
  | Fault f _ =>
      exists i l, log_events w !! i = Some l /\ 0 < fd l /\ filter l line = Err f
  | Stuck _ =>
      exists i l, log_events w !! i = Some l /\ 0 < fd l /\
                  filter l line = Ok true /\ wr i = WBlock
  end.
Proof.
  intros Hok. unfold dispatch.
  pose proof (dispatch_from line len wr EVENT_NUM 0 w eq_refl Hok) as H.
  destruct (for_each EVENT_NUM 0 (dispatch_slot line len wr) w) as [[] w'|f w'|w'];
    try exact H.
  - destruct H as (i & l & _ & H). now exists i, l.
  - destruct H as (i & l & _ & H). now exists i, l.
Qed.

(** Lines 151-155. *)
Lemma rearm_eq (tid : Z) (w : world) (h : log_listener) :
  log_events w !! HIDE_EVENT = Some h ->
  rearm tid w =
    if (thread w <? 0) && (fd h <? 0)
    then Done true (World (loggable w) tid (log_events w) (lock w) (trace w ++ [ESpawn tid]))
    else Done false w.
Proof.
  intros Hh. unfold rearm, bind, get_thread, get_fd.
  destruct (thread w <? 0); [|reflexivity].
  rewrite Hh. destruct (fd h <? 0); reflexivity.
Qed.

(** Lines 145-156 as a whole. *)
Lemma locked_pass_spec (l : line_in) (w : world) :
  table_ok w ->
  lock w = false ->
  match locked_pass l w with
  | Done b w' =>
      exists w1 h,
        pass_post (text l) (strlen (text l)) (wr l) 0 (guarded w) w1 /\
        log_events w1 !! HIDE_EVENT = Some h /\
        b = (thread w <? 0) && (fd h <? 0) /\
        w' = rearmed b (tid l) w1
  | Fault f _ =>
      exists i l0, log_events w !! i = Some l0 /\ 0 < fd l0 /\ filter l0 (text l) = Err f
  | Stuck _ =>
      exists i l0, log_events w !! i = Some l0 /\ 0 < fd l0 /\
                   filter l0 (text l) = Ok true /\ wr l i = WBlock
  end.
Proof.
  intros Hok Hfree. unfold locked_pass. unfold bind at 1.
  unfold pthread_mutex_lock. rewrite Hfree. fold (guarded w).
  assert (Hokg : table_ok (guarded w)) by exact Hok.
  pose proof (dispatch_spec (text l) (strlen (text l)) (wr l) (guarded w) Hokg) as Hd.
  unfold bind at 1.
  destruct (dispatch (text l) (strlen (text l)) (wr l) (guarded w)) as [[] w1|f w1|w1];
    [|exact Hd|exact Hd].
  assert (Hok1 : table_ok w1).
  { unfold table_ok in *. destruct (pp_table _ _ _ _ _ _ Hd) as [-> | ->];
      [assumption | now rewrite clear_hide_length]. }
  destruct (table_lookup w1 HIDE_EVENT Hok1) as [h Hh];
    [unfold HIDE_EVENT, EVENT_NUM; simpl; lia|].
  unfold bind at 1. rewrite (rearm_eq _ _ h Hh).
  rewrite (pp_thread _ _ _ _ _ _ Hd). cbn [guarded thread].
  destruct ((thread w <? 0) && (fd h <? 0)) eqn:Hb;
    unfold bind, pthread_mutex_unlock, ret; cbn beta iota;
    exists w1, h; rewrite Hb;
    (split; [exact Hd | split; [exact Hh | split; [reflexivity|]]]).
  - unfold rearmed. cbn [loggable thread log_events lock trace].
    now rewrite <- app_assoc.
  - unfold rearmed. cbn [app]. reflexivity.
Qed.

Lemma locked_pass_needs_guard (l : line_in) (w : world) :
  lock w = true -> locked_pass l w = Stuck w.
Proof.
  intros Hl. unfold locked_pass, bind, pthread_mutex_lock. now rewrite Hl.
Qed.

(** The trace of the pass of one line: the guard is taken, the writes
    are issued, a thread is created or not, the guard is released. *)
Lemma locked_pass_trace (l : line_in) (w w' : world) (b : bool) :
  table_ok w ->
  locked_pass l w = Done b w' ->
  exists tr1,
    trace w' = trace w ++ ELock :: tr1 ++ (if b then [ESpawn (tid l)] else []) ++ [EUnlock] /\
    (forall i, slot_writes i tr1 =
               expected_writes (log_events w) (text l) (strlen (text l)) i) /\
    (forall e, e ∈ tr1 ->
       (exists i f, e = EWrite i f (text l) (strlen (text l))) \/ (exists f, e = EClose f)).
Proof.
  intros Hok Hrun.
  destruct (lock w) eqn:Hfree.
  { rewrite locked_pass_needs_guard in Hrun by assumption. discriminate. }
  pose proof (locked_pass_spec l w Hok Hfree) as Hs. rewrite Hrun in Hs.
  destruct Hs as (w1 & h & Hpost & Hh & Hb & ->).
  destruct (pp_trace _ _ _ _ _ _ Hpost) as (tr1 & Htr & Hw & _ & Hev).
  exists tr1. split; [|split].
  - unfold rearmed. cbn [trace]. rewrite Htr. unfold guarded. cbn [trace].
    rewrite <- !app_assoc. reflexivity.
  - intros i. apply Hw. lia.
  - exact Hev.
Qed.

Lemma slot_writes_pass (i : nat) (tr1 : list event) (b : bool) (tid : Z) :
  slot_writes i (ELock :: tr1 ++ (if b then [ESpawn tid] else []) ++ [EUnlock]) =
  slot_writes i tr1.
Proof.
  change (ELock :: tr1 ++ (if b then [ESpawn tid] else []) ++ [EUnlock])
    with ([ELock] ++ tr1 ++ (if b then [ESpawn tid] else []) ++ [EUnlock]).
  rewrite !slot_writes_app. destruct b; simpl; now rewrite app_nil_r.
Qed.

(** ** The dispatch of a line *)


(** ** What every computation preserves *)

Section Steps.

Variable R : world -> world -> Prop.
Hypothesis R_refl : forall w, R w w.
Hypothesis R_trans : forall w1 w2 w3, R w1 w2 -> R w2 w3 -> R w1 w3.

Lemma steps_ret {A} (a : A) : steps R (ret a).
Proof. intros w. apply R_refl. Qed.

Lemma steps_stuck {A} : steps R (@stuck A).
Proof. intros w. apply R_refl. Qed.

Lemma steps_fail {A} (f : fault) : steps R (@fail A f).
Proof. intros w. apply R_refl. Qed.

Lemma steps_bind {A B} (c : M A) (k : A -> M B) :
  steps R c -> (forall a, steps R (k a)) -> steps R (bind c k).
Proof.
  intros Hc Hk w. unfold bind. specialize (Hc w).
  destruct (c w) as [a w1|f w1|w1]; simpl in *; try assumption.
  eapply R_trans; [exact Hc | apply Hk].
Qed.

Lemma steps_if {A} (b : bool) (c1 c2 : M A) :
  steps R c1 -> steps R c2 -> steps R (if b then c1 else c2).
Proof. now destruct b. Qed.

Lemma steps_for_each (body : nat -> M unit) (n from : nat) :
  (forall i, steps R (body i)) -> steps R (for_each n from body).
Proof.
  intros Hb. revert from. induction n as [|n IH]; intros from; simpl.
  - apply steps_ret.
  - apply steps_bind; [apply Hb | intros _; apply IH].
Qed.

Lemma steps_get_loggable : steps R get_loggable.
Proof. intros w. apply R_refl. Qed.

Lemma steps_get_thread : steps R get_thread.
Proof. intros w. apply R_refl. Qed.

Lemma steps_get_fd (i : nat) : steps R (get_fd i).
Proof. intros w. unfold get_fd. destruct (log_events w !! i); apply R_refl. Qed.

Lemma steps_call_filter (i : nat) (line : string) : steps R (call_filter i line).
Proof.
  intros w. unfold call_filter. destruct (log_events w !! i) as [l|]; [|apply R_refl].
  destruct (filter l line); apply R_refl.
Qed.

End Steps.

Lemma extends_refl (P : event -> Prop) (w : world) : extends P w w.
Proof. exists []. now rewrite app_nil_r. Qed.

Lemma extends_trans (P : event -> Prop) (w1 w2 w3 : world) :
  extends P w1 w2 -> extends P w2 w3 -> extends P w1 w3.
Proof.
  intros (t1 & H1 & F1) (t2 & H2 & F2). exists (t1 ++ t2). split.
  - now rewrite H2, H1, app_assoc.
  - now apply Forall_app.
Qed.

Lemma extends_mono (P Q : event -> Prop) (w w' : world) :
  (forall e, P e -> Q e) -> extends P w w' -> extends Q w w'.
Proof.
  intros HPQ (t & H & F). exists t. split; [assumption|].
  eapply Forall_impl; eauto.
Qed.

Lemma steps_mono (P Q : event -> Prop) {A} (c : M A) :
  (forall e, P e -> Q e) -> steps (extends P) c -> steps (extends Q) c.
Proof. intros HPQ Hc w. eapply extends_mono; eauto. Qed.

Lemma extends_emit (P : event -> Prop) (e : event) :
  P e -> steps (extends P) (emit e).
Proof. intros He w. exists [e]. split; [reflexivity | now constructor]. Qed.

Lemma extends_same_trace (P : event -> Prop) (w w' : world) :
  trace w' = trace w -> extends P w w'.
Proof. intros H. exists []. now rewrite app_nil_r. Qed.

Lemma extends_set_fd (P : event -> Prop) (i : nat) (v : Z) :
  steps (extends P) (set_fd i v).
Proof.
  intros w. unfold set_fd. destruct (log_events w !! i); now apply extends_same_trace.
Qed.

Lemma extends_set_thread (P : event -> Prop) (v : Z) :
  steps (extends P) (set_thread v).
Proof. intros w. now apply extends_same_trace. Qed.

Lemma extends_set_loggable (P : event -> Prop) (v : Z) :
  steps (extends P) (set_loggable v).
Proof. intros w. now apply extends_same_trace. Qed.

Lemma extends_lock (P : event -> Prop) :
  P ELock -> steps (extends P) pthread_mutex_lock.
Proof.
  intros He w. unfold pthread_mutex_lock. destruct (lock w); [apply extends_refl|].
  exists [ELock]. split; [reflexivity | now constructor].
Qed.

Lemma extends_unlock (P : event -> Prop) :
  P EUnlock -> steps (extends P) pthread_mutex_unlock.
Proof. intros He w. exists [EUnlock]. split; [reflexivity | now constructor]. Qed.

Lemma extends_bind (P : event -> Prop) {A B} (c : M A) (k : A -> M B) :
  steps (extends P) c -> (forall a, steps (extends P) (k a)) ->
  steps (extends P) (bind c k).
Proof. apply steps_bind. apply extends_trans. Qed.

Lemma extends_for_each (P : event -> Prop) (body : nat -> M unit) (n from : nat) :
  (forall i, steps (extends P) (body i)) -> steps (extends P) (for_each n from body).
Proof. apply steps_for_each; [apply extends_refl | apply extends_trans]. Qed.

Create HintDb trace_db.

#[local] Hint Resolve extends_set_fd extends_set_thread extends_set_loggable : trace_db.
#[local] Hint Extern 1 (steps (extends _) (ret _)) =>
  apply steps_ret; apply extends_refl : trace_db.
#[local] Hint Extern 1 (steps (extends _) stuck) =>
  apply steps_stuck; apply extends_refl : trace_db.
#[local] Hint Extern 1 (steps (extends _) (fail _)) =>
  apply steps_fail; apply extends_refl : trace_db.
#[local] Hint Extern 1 (steps (extends _) get_loggable) =>
  apply steps_get_loggable; apply extends_refl : trace_db.
#[local] Hint Extern 1 (steps (extends _) get_thread) =>
  apply steps_get_thread; apply extends_refl : trace_db.
#[local] Hint Extern 1 (steps (extends _) (get_fd _)) =>
  apply steps_get_fd; apply extends_refl : trace_db.
#[local] Hint Extern 1 (steps (extends _) (call_filter _ _)) =>
  apply steps_call_filter; apply extends_refl : trace_db.

(** Builds [steps (extends P) c] along the structure of [c]. *)
Ltac trace_steps :=
  repeat first
    [ apply extends_for_each; intros ?
    | apply extends_bind; [ | intros ? ]
    | apply steps_if
    | apply extends_emit; simpl; solve [auto]
    | apply extends_lock; simpl; solve [auto]
    | apply extends_unlock; simpl; solve [auto]
    | solve [auto with trace_db] ].

Lemma locked_pass_extends (l : line_in) :
  steps (extends (writes_only (text l))) (locked_pass l).
Proof.
  unfold locked_pass, dispatch, dispatch_slot, rearm, write_fd.
  trace_steps.
  destruct (wr l _); trace_steps.
Qed.

(** ** The loop over the lines *)

Lemma writes_from_cons (l : line_in) (ls : list line_in) (e : event) :
  writes_from ls e -> writes_from (l :: ls) e.
Proof.
  destruct e; simpl; auto. intros [Hc Hin]. split; [assumption|].
  now apply elem_of_cons; right.
Qed.

Lemma writes_only_from (l : line_in) (ls : list line_in) (e : event) :
  first_char (text l) <> "-"%char ->
  writes_only (text l) e -> writes_from (l :: ls) e.
Proof.
  intros Hc. destruct e; simpl; auto. intros ->. split; [assumption|].
  now apply elem_of_cons; left.
Qed.

Lemma read_lines_extends (pid : Z) (eof : bool) (ls : list line_in) :
  steps (extends (writes_from ls)) (read_lines pid eof ls).
Proof.
  induction ls as [|l rest IH]; cbn [read_lines].
  - destruct eof; trace_steps.
  - destruct (Ascii.eqb (first_char (text l)) "-") eqn:Hc.
    + eapply steps_mono; [apply writes_from_cons | exact IH].
    + apply Ascii.eqb_neq in Hc.
      apply extends_bind.
      * eapply steps_mono; [|apply locked_pass_extends].
        intros e. now apply writes_only_from.
      * intros _. apply extends_bind; [apply extends_emit; exact I|].
        intros _. apply steps_if; [trace_steps|].
        eapply steps_mono; [apply writes_from_cons | exact IH].
Qed.

(** C9: a line whose first character is '-' is dropped: the loop goes on
    with the next line in the same world, nothing written, no thread
    created, whatever the filters of the table answer on it. So every
    write the loop ever issues carries a line that does not start with
    '-'. *)
Theorem continuation_lines_not_dispatched
    (pid : Z) (eof : bool) (ls : list line_in) (w : world) :
  extends (writes_from ls) w (world_of (read_lines pid eof ls w)) /\
  forall (l : line_in) (rest : list line_in),
    ls = l :: rest ->
    first_char (text l) = "-"%char ->
    read_lines pid eof ls w = read_lines pid eof rest w.
Proof.
  split; [apply read_lines_extends|].
  intros l rest -> Hc. cbn [read_lines]. now rewrite Hc.
Qed.

(** ** Writes that fail *)

(** A broken pipe on the write to the hide listener: the handler runs
    next, and closes the descriptor the write was issued on. *)
Lemma dispatch_hide_pipe (line : string) (len : Z) (wr : nat -> wres) (w : world)
    (h : log_listener) :
  log_events w !! HIDE_EVENT = Some h ->
  0 < fd h ->
  filter h line = Ok true ->
  wr HIDE_EVENT = WPipe ->
  exists tr,
    trace (world_of (dispatch line len wr w)) =
      trace w ++ EWrite HIDE_EVENT (fd h) line len :: EClose (fd h) :: tr.
Proof.
  intros Hh Hpos Hf Hp. unfold dispatch.
  change (for_each EVENT_NUM 0 (dispatch_slot line len wr))
    with (dispatch_slot line len wr HIDE_EVENT ;;
          for_each 2 1 (dispatch_slot line len wr)).
  unfold bind at 1.
  rewrite (dispatch_slot_eq line len wr HIDE_EVENT w h h Hh Hh).
  apply Z.ltb_lt in Hpos. rewrite Hpos, Hf, Hp. cbn [is_block is_pipe].
  match goal with |- context [for_each 2 1 _ ?w2] =>
    assert (Hext : extends (fun _ => True) w2
                     (world_of (for_each 2 1 (dispatch_slot line len wr) w2))) end.
  { apply extends_for_each. intros i. unfold dispatch_slot, write_fd, sigpipe_handler.
    trace_steps. destruct (wr i); trace_steps. }
  destruct Hext as (tr & Htr & _). cbn [trace] in Htr.
  exists tr. rewrite Htr. now rewrite <- app_assoc.
Qed.

Lemma locked_pass_hide_pipe (l : line_in) (w w' : world) (b : bool) (h : log_listener) :
  lock w = false ->
  log_events w !! HIDE_EVENT = Some h ->
  0 < fd h ->
  filter h (text l) = Ok true ->
  wr l HIDE_EVENT = WPipe ->
  locked_pass l w = Done b w' ->
  exists tr,
    trace w' = trace w ++ ELock ::
      EWrite HIDE_EVENT (fd h) (text l) (strlen (text l)) :: EClose (fd h) :: tr.
Proof.
  intros Hfree Hh Hpos Hf Hp Hrun. unfold locked_pass in Hrun.
  apply bind_Done_inv in Hrun as ([] & w0 & Hlock & Hrun).
  unfold pthread_mutex_lock in Hlock. rewrite Hfree in Hlock.
  injection Hlock as <-.
  apply bind_Done_inv in Hrun as ([] & w1 & Hd & Hrun).
  fold (guarded w) in Hd.
  destruct (dispatch_hide_pipe (text l) (strlen (text l)) (wr l) (guarded w) h
              Hh Hpos Hf Hp) as (tr1 & Htr1).
  rewrite Hd in Htr1. cbn [world_of guarded trace] in Htr1.
  assert (Hext : extends (fun _ => True) w1
            (world_of ((b0 <- rearm (tid l) ;; pthread_mutex_unlock ;; ret b0) w1))).
  { unfold rearm. trace_steps. }
  rewrite Hrun in Hext. destruct Hext as (tr2 & Htr2 & _). cbn [world_of] in Htr2.
  exists (tr1 ++ tr2). rewrite Htr2, Htr1. rewrite <- !app_assoc. reflexivity.
Qed.

(** The table a pass leaves is the table it found, the hide listener
    cleared or not: what it asks of the lines to come is no more. *)
Lemma pass_returns_cleared (tbl tbl2 : list log_listener) (l : line_in) :
  tbl2 = tbl \/ tbl2 = clear_hide tbl ->
  length tbl = EVENT_NUM ->
  pass_returns tbl l -> pass_returns tbl2 l.
Proof.
  intros [->| ->] Hlen [Hw Hf]; split; try assumption.
  intros i ll Hll Hpos. destruct (decide (i = HIDE_EVENT)) as [->|Hne].
  - destruct (lookup_lt_is_Some_2 tbl HIDE_EVENT) as [h Hh];
      [rewrite Hlen; unfold HIDE_EVENT, EVENT_NUM; simpl; lia|].
    rewrite (clear_hide_hide _ _ Hh) in Hll. injection Hll as <-.
    simpl in Hpos. lia.
  - rewrite clear_hide_other in Hll by assumption. eauto.
Qed.

Lemma locked_pass_returns (l : line_in) (w : world) :
  table_ok w ->
  lock w = false ->
  pass_returns (log_events w) l ->
  exists b w',
    locked_pass l w = Done b w' /\
    table_ok w' /\ lock w' = false /\
    (log_events w' = log_events w \/ log_events w' = clear_hide (log_events w)).
Proof.
  intros Hok Hfree [Hw Hdef].
  pose proof (locked_pass_spec l w Hok Hfree) as Hs.
  destruct (locked_pass l w) as [b w'|f w'|w'] eqn:Hrun.
  - exists b, w'. split; [reflexivity|].
    destruct Hs as (w1 & h1 & Hpost & Hh1 & Hb & ->).
    pose proof (pp_table _ _ _ _ _ _ Hpost) as Ht.
    cbn [guarded rearmed log_events lock] in *.
    split; [|split; [reflexivity | exact Ht]].
    unfold table_ok in *. cbn [rearmed log_events].
    destruct Ht as [-> | ->]; [assumption | now rewrite clear_hide_length].
  - destruct Hs as (i & ll & Hll & Hpos & Hf).
    destruct (Hdef i ll Hll Hpos) as [b Hb]. congruence.
  - destruct Hs as (i & ll & _ & _ & _ & Hb). now apply Hw in Hb.
Qed.

(** The loop over the lines goes on whatever the writes answer, as long
    as they answer: it returns, or waits for the next line; it leaves
    every listener but the hide listener as it was, and hands it the
    writes its filter asks for, whatever was answered to any write. *)
Lemma read_lines_goes_on (pid : Z) (eof : bool) (ls : list line_in)
    (tbl : list log_listener) :
  length tbl = EVENT_NUM ->
  forall w,
    lock w = false ->
    (log_events w = tbl \/ log_events w = clear_hide tbl) ->
    Forall (pass_returns tbl) ls ->
    exists wz,
      (read_lines pid eof ls w = Done tt wz \/
       (eof = false /\ read_lines pid eof ls w = Stuck wz)) /\
      (log_events wz = tbl \/ log_events wz = clear_hide tbl) /\
      exists tr, trace wz = trace w ++ tr /\
        forall i, i <> HIDE_EVENT ->
          slot_writes i tr =
          flat_map (fun l' => expected_writes tbl (text l') (strlen (text l')) i)
            (dispatched ls).
Proof.
  intros Hlen. induction ls as [|l rest IH]; intros w Hfree Htbl Hall.
  - exists w. cbn [read_lines dispatched flat_map]. split; [|split].
    + destruct eof; [now left | now right].
    + assumption.
    + exists []. now rewrite app_nil_r.
  - apply Forall_cons in Hall as [Hl Hrest].
    cbn [read_lines dispatched].
    destruct (Ascii.eqb (first_char (text l)) "-"); [now apply IH|].
    assert (Hok : table_ok w).
    { unfold table_ok. destruct Htbl as [-> | ->];
        [assumption | now rewrite clear_hide_length]. }
    destruct (locked_pass_returns l w Hok Hfree
                (pass_returns_cleared tbl _ l Htbl Hlen Hl))
      as (b & w1 & Hrun & Hok1 & Hfree1 & Ht1).
    destruct (locked_pass_trace l w w1 b Hok Hrun) as (tr1 & Htr1 & Hw1 & _).
    assert (Htbl1 : log_events w1 = tbl \/ log_events w1 = clear_hide tbl).
    { destruct Ht1 as [-> | ->]; [assumption|].
      destruct Htbl as [-> | ->]; [now right | right; apply clear_hide_idem]. }
    set (pass := ELock :: tr1 ++ (if b then [ESpawn (tid l)] else []) ++ [EUnlock]) in *.
    assert (Hmine : forall i, i <> HIDE_EVENT ->
              slot_writes i (pass ++ [EKill pid 0]) =
              expected_writes tbl (text l) (strlen (text l)) i).
    { intros i Hi. rewrite slot_writes_app. unfold pass.
      rewrite slot_writes_pass, Hw1.
      change (slot_writes i [EKill pid 0]) with (@nil (Z * string * Z)).
      rewrite app_nil_r.
      apply expected_lookup. now apply maybe_cleared_other. }
    assert (Heq : (locked_pass l ;; emit (EKill pid 0) ;;
                   if negb (alive l =? 0) then ret tt else read_lines pid eof rest) w =
                  (if negb (alive l =? 0) then ret tt else read_lines pid eof rest)
                    (World (loggable w1) (thread w1) (log_events w1) (lock w1)
                       (trace w1 ++ [EKill pid 0])))
      by (unfold bind at 1; rewrite Hrun; reflexivity).
    rewrite !Heq. clear Heq.
    destruct (negb (alive l =? 0)); cbn beta iota.
    + eexists. split; [left; reflexivity|]. cbn [log_events trace flat_map].
      split; [assumption|].
      exists (pass ++ [EKill pid 0]). split; [now rewrite Htr1, <- app_assoc|].
      intros i Hi. rewrite app_nil_r. now apply Hmine.
    + match goal with |- context [read_lines pid eof rest ?w2] =>
        destruct (IH w2) as (wz & Hout & Htz & trz & Htrz & Hwz) end;
        [exact Hfree1 | exact Htbl1 | exact Hrest |].
      exists wz. split; [exact Hout|]. split; [exact Htz|].
      cbn [trace] in Htrz.
      exists ((pass ++ [EKill pid 0]) ++ trz).
      split; [now rewrite Htrz, Htr1, <- !app_assoc|].
      intros i Hi. cbn [flat_map].
      now rewrite slot_writes_app, (Hwz i Hi), (Hmine i Hi).
Qed.

(** C4, in the form that holds of the code. A write to the hide
    listener that raises [SIGPIPE] runs the handler before anything else
    is done: the handler closes the descriptor of the hide listener and
    leaves [log_events[HIDE_EVENT].fd = -1]. The value [write] returns is
    never looked at: when no write of the pass raises [SIGPIPE] the table
    is left as it was, whatever the writes return. As long as the writes
    return and the filters are defined on the lines, no answer of a write
    stops the pass or the loop over the lines, and no listener but the
    hide listener is touched: in the pass and in every pass that follows
    it is handed the writes its own filter asks for. *)
Theorem broken_pipe_clears_hide (l : line_in) (w : world) :
  table_ok w ->
  lock w = false ->
  (forall i, wr l i <> WBlock) ->
  (forall i ll, log_events w !! i = Some ll -> 0 < fd ll ->
                exists b, filter ll (text l) = Ok b) ->
  exists (b : bool) (w' : world),
    locked_pass l w = Done b w' /\
    (exists tr, trace w' = trace w ++ tr /\
       forall i, slot_writes i tr =
                 expected_writes (log_events w) (text l) (strlen (text l)) i) /\
    (forall i, i <> HIDE_EVENT -> log_events w' !! i = log_events w !! i) /\
    loggable w' = loggable w /\
    (forall h, log_events w !! HIDE_EVENT = Some h -> 0 < fd h ->
               filter h (text l) = Ok true -> wr l HIDE_EVENT = WPipe ->
               log_events w' !! HIDE_EVENT = Some (LogListener (-1) (filter h)) /\
               exists tr, trace w' = trace w ++ ELock ::
                 EWrite HIDE_EVENT (fd h) (text l) (strlen (text l)) ::
                 EClose (fd h) :: tr) /\
    ((forall i, wr l i <> WPipe) -> log_events w' = log_events w) /\
    (forall pid eof rest, first_char (text l) <> "-"%char ->
       read_lines pid eof (l :: rest) w =
       (emit (EKill pid 0) ;;
        if negb (alive l =? 0) then ret tt else read_lines pid eof rest) w') /\
    (forall pid eof rest,
       Forall (pass_returns (log_events w)) rest ->
       exists wz,
         (read_lines pid eof (l :: rest) w = Done tt wz \/
          (eof = false /\ read_lines pid eof (l :: rest) w = Stuck wz)) /\
         (forall i, i <> HIDE_EVENT -> log_events wz !! i = log_events w !! i) /\
         exists tr, trace wz = trace w ++ tr /\
           forall i, i <> HIDE_EVENT ->
             slot_writes i tr =
             flat_map (fun l' => expected_writes (log_events w) (text l')
                                   (strlen (text l')) i)
               (dispatched (l :: rest))).
Proof.
  intros Hok Hfree Hret Hdef.
  pose proof (locked_pass_spec l w Hok Hfree) as Hs.
  destruct (locked_pass l w) as [b w'|f w'|w'] eqn:Hrun.
  - exists b, w'. split; [reflexivity|].
    destruct (locked_pass_trace l w w' b Hok Hrun) as (tr1 & Htr & Hw & _).
    destruct Hs as (w1 & h1 & Hpost & Hh1 & Hb & Hw').
    destruct Hpost as [H1 H2 H3 H4 H5 H6 H7 H8].
    cbn [guarded rearmed loggable thread log_events lock trace] in *.
    assert (Ht' : log_events w' = log_events w1) by (now subst w').
    assert (Hl' : loggable w' = loggable w1) by (now subst w').
    split; [|split; [|split; [|split; [|split; [|split]]]]].
    + eexists. split; [exact Htr|]. intros i. now rewrite slot_writes_pass.
    + intros i Hi. rewrite Ht'. now apply maybe_cleared_other.
    + congruence.
    + intros h Hh Hpos Hf Hp. split.
      * rewrite Ht', (H5 HIDE_EVENT); [now apply clear_hide_hide | lia | | assumption].
        unfold fires. rewrite Hh, Hf. apply Z.ltb_lt in Hpos. now rewrite Hpos.
      * exact (locked_pass_hide_pipe l w w' b h Hfree Hh Hpos Hf Hp Hrun).
    + intros Hall. rewrite Ht'. apply H6. intros i _ _. apply Hall.
    + intros pid eof rest Hc. cbn [read_lines].
      apply Ascii.eqb_neq in Hc. rewrite Hc.
      unfold bind at 1. now rewrite Hrun.
    + intros pid eof rest Hrest.
      destruct (read_lines_goes_on pid eof (l :: rest) (log_events w) Hok w Hfree
                  (or_introl eq_refl))
        as (wz & Hout & Htz & tr & Htrz & Hwz).
      { constructor; [split; assumption | exact Hrest]. }
      exists wz. split; [exact Hout|]. split.
      * intros i Hi. now apply maybe_cleared_other.
      * exists tr. split; assumption.
  - destruct Hs as (i & ll & Hll & Hpos & Hf).
    destruct (Hdef i ll Hll Hpos) as [b Hb]. congruence.
  - destruct Hs as (i & ll & _ & _ & _ & Hb). now apply Hret in Hb.
Qed.

(** C4, what fails: a write to the hide listener that fails without a
    signal leaves the listener in place: its failure is not caught where
    the write is issued. *)
Lemma silent_write_failure_keeps_hide :
  ~ (forall (l : line_in) (w w' : world) (b : bool) (h : log_listener),
       table_ok w ->
       log_events w !! HIDE_EVENT = Some h ->
       0 < fd h ->
       filter h (text l) = Ok true ->
       write_failed (wr l HIDE_EVENT) ->
       locked_pass l w = Done b w' ->
       exists h', log_events w' !! HIDE_EVENT = Some h' /\ fd h' < 0).
Proof.
  intros H.
  destruct (H (line_with "I am_proc_start: [0,1234,10012,com.example]" WFail)
              subscribed_world
              (world_of (locked_pass
                 (line_with "I am_proc_start: [0,1234,10012,com.example]" WFail)
                 subscribed_world))
              false
              (LogListener 7 am_proc_start_filter))
    as (h' & Hh' & Hneg).
  - reflexivity.
  - reflexivity.
  - simpl. lia.
  - reflexivity.
  - now right.
  - reflexivity.
  - vm_compute in Hh'. injection Hh' as <-. simpl in Hneg. lia.
Qed.

(** ** Components of the world a computation leaves alone *)

Lemma keeps_refl {T} (proj : world -> T) (w : world) : keeps proj w w.
Proof. reflexivity. Qed.

Lemma keeps_trans {T} (proj : world -> T) (w1 w2 w3 : world) :
  keeps proj w1 w2 -> keeps proj w2 w3 -> keeps proj w1 w3.
Proof. unfold keeps. congruence. Qed.

Lemma steps_weaken (R1 R2 : world -> world -> Prop) {A} (c : M A) :
  (forall w w', R1 w w' -> R2 w w') -> steps R1 c -> steps R2 c.
Proof. intros H Hc w. apply H, Hc. Qed.

Lemma stays_disabled_refl (w : world) : stays_disabled w w.
Proof. now intros H. Qed.

Lemma stays_disabled_trans (w1 w2 w3 : world) :
  stays_disabled w1 w2 -> stays_disabled w2 w3 -> stays_disabled w1 w3.
Proof. unfold stays_disabled. auto. Qed.

Lemma keeps_stays_disabled (w w' : world) :
  keeps loggable w w' -> stays_disabled w w'.
Proof. unfold keeps, stays_disabled. congruence. Qed.

Lemma changed_by_probe_refl (runs : list run_in) (w : world) :
  changed_by_probe runs w w.
Proof. now left. Qed.

Lemma changed_by_probe_trans (runs : list run_in) (w1 w2 w3 : world) :
  changed_by_probe runs w1 w2 -> changed_by_probe runs w2 w3 ->
  changed_by_probe runs w1 w3.
Proof.
  intros [H1|H1] [H2|H2]; try (now right). left. congruence.
Qed.

Lemma keeps_changed_by_probe (runs : list run_in) (w w' : world) :
  keeps loggable w w' -> changed_by_probe runs w w'.
Proof. now left. Qed.

Lemma changed_by_probe_cons (r : run_in) (runs : list run_in) (w w' : world) :
  changed_by_probe runs w w' -> changed_by_probe (r :: runs) w w'.
Proof.
  intros [H|(r' & n & Hin & Hr & Hn)]; [now left|].
  right. exists r', n. split; [now apply elem_of_cons; right | auto].
Qed.

Create HintDb steps_db.

#[local] Hint Resolve keeps_refl keeps_trans stays_disabled_refl stays_disabled_trans
  changed_by_probe_refl changed_by_probe_trans : steps_db.

(** A primitive of the monad leaves [proj] alone. *)
Ltac prim_keeps :=
  let w := fresh "w" in
  intros w;
  cbv [keeps stays_disabled changed_by_probe
       ret stuck fail emit get_loggable get_thread get_fd set_fd set_thread set_loggable
       call_filter pthread_mutex_lock pthread_mutex_unlock];
  repeat match goal with
         | |- context [match ?x with _ => _ end] => destruct x
         end;
  cbn [world_of loggable thread log_events lock trace];
  first [ reflexivity
        | rewrite length_alter; reflexivity
        | intros; assumption
        | left; reflexivity ].

(** Builds [steps R c] along the structure of [c]. *)
Ltac steps_tac :=
  repeat first
    [ match goal with H : _ |- _ => solve [apply H] end
    | apply steps_for_each; [solve [eauto with steps_db] | solve [eauto with steps_db] | intros ?]
    | apply steps_bind; [solve [eauto with steps_db] | | intros ?]
    | apply steps_if
    | solve [prim_keeps] ].

(** [loggable] is written by [test_logcat] only. *)

Lemma sigpipe_handler_keeps_loggable : steps (keeps loggable) sigpipe_handler.
Proof. unfold sigpipe_handler. steps_tac. Qed.

Lemma dispatch_keeps_loggable (line : string) (len : Z) (wr : nat -> wres) :
  steps (keeps loggable) (dispatch line len wr).
Proof.
  unfold dispatch, dispatch_slot, write_fd. steps_tac.
  destruct (wr _); steps_tac.
Qed.

Lemma locked_pass_keeps_loggable (l : line_in) : steps (keeps loggable) (locked_pass l).
Proof.
  unfold locked_pass, rearm. pose proof (dispatch_keeps_loggable (text l)).
  steps_tac.
Qed.

Lemma read_lines_keeps_loggable (pid : Z) (eof : bool) (ls : list line_in) :
  steps (keeps loggable) (read_lines pid eof ls).
Proof.
  induction ls as [|l rest IH]; cbn [read_lines].
  - destruct eof; steps_tac.
  - pose proof (locked_pass_keeps_loggable l). steps_tac.
Qed.

Lemma disable_all_keeps_loggable : steps (keeps loggable) disable_all.
Proof. unfold disable_all. steps_tac. Qed.

Lemma serve_keeps_loggable (HIDE_CONNECT conn code : Z) :
  steps (keeps loggable) (serve HIDE_CONNECT conn code).
Proof. unfold serve. steps_tac. Qed.

Lemma socket_thread_keeps_loggable (HIDE_CONNECT : Z) (conns : list (Z * Z)) :
  steps (keeps loggable) (socket_thread HIDE_CONNECT conns).
Proof.
  induction conns as [|[conn code] rest IH]; cbn [socket_thread].
  - steps_tac.
  - pose proof (serve_keeps_loggable HIDE_CONNECT conn code). steps_tac.
Qed.

(** The size of the table never changes. *)

Lemma locked_pass_keeps_length (l : line_in) :
  steps (keeps (fun w => length (log_events w))) (locked_pass l).
Proof.
  unfold locked_pass, rearm, dispatch, dispatch_slot, write_fd. steps_tac.
  destruct (wr _ _); steps_tac.
Qed.

Lemma read_lines_keeps_length (pid : Z) (eof : bool) (ls : list line_in) :
  steps (keeps (fun w => length (log_events w))) (read_lines pid eof ls).
Proof.
  induction ls as [|l rest IH]; cbn [read_lines].
  - destruct eof; steps_tac.
  - pose proof (locked_pass_keeps_length l). steps_tac.
Qed.

(** ** The probe *)

Lemma test_logcat_ret (pid pfd n : Z) (w : world) :
  test_logcat pid pfd (RRet n) w =
    Done tt (World (if n =? 1 then loggable w else 0) (thread w) (log_events w) (lock w)
               (trace w ++ [EExec ["logcat"%string] pid pfd; ERead pfd 1;
                            EKill pid SIGTERM; EWaitpid pid])).
Proof.
  destruct w as [g t tbl lk tr].
  unfold test_logcat, bind, emit, set_loggable, ret.
  cbn [loggable thread log_events lock trace].
  destruct (n =? 1); cbn [negb loggable thread log_events lock trace];
    now rewrite <- !app_assoc.
Qed.

Lemma test_logcat_never (pid pfd : Z) (w : world) :
  test_logcat pid pfd RNever w =
    Stuck (World (loggable w) (thread w) (log_events w) (lock w)
             (trace w ++ [EExec ["logcat"%string] pid pfd; ERead pfd 1])).
Proof.
  destruct w as [g t tbl lk tr].
  unfold test_logcat, bind, emit, stuck.
  cbn [loggable thread log_events lock trace].
  now rewrite <- !app_assoc.
Qed.

(** C5, in the form that holds of the code: the probe starts "logcat"
    with no argument and issues one read of one byte, which has no time
    limit. When the read returns, [loggable] is cleared if and only if
    the read did not deliver exactly one byte and is left as it was
    otherwise, the child is then sent [SIGTERM] and reaped, and the probe
    returns. When the read does not return the probe does not either,
    and the child is neither signalled nor reaped. *)
Theorem test_logcat_probe (pid pfd : Z) (w : world) :
  (forall n : Z,
     exists w',
       test_logcat pid pfd (RRet n) w = Done tt w' /\
       (n = 1 -> loggable w' = loggable w) /\
       (n <> 1 -> loggable w' = 0) /\
       thread w' = thread w /\
       log_events w' = log_events w /\
       trace w' = trace w ++ [EExec ["logcat"%string] pid pfd; ERead pfd 1;
                              EKill pid SIGTERM; EWaitpid pid]) /\
  (exists w',
     test_logcat pid pfd RNever w = Stuck w' /\
     loggable w' = loggable w /\
     trace w' = trace w ++ [EExec ["logcat"%string] pid pfd; ERead pfd 1]).
Proof.
  split.
  - intros n. eexists. split; [apply test_logcat_ret|].
    cbn [loggable thread log_events lock trace].
    repeat split.
    + intros ->. reflexivity.
    + intros Hn. destruct (Z.eqb_spec n 1); [contradiction | reflexivity].
  - eexists. split; [apply test_logcat_never|]. split; reflexivity.
Qed.

(** C5, what fails: the wait of the probe is not bounded. With a child
    that stays silent the probe never returns, so it does not return
    with the child terminated and reaped in every case. *)
Lemma probe_wait_is_unbounded :
  ~ (forall (pid pfd : Z) (rd : rres) (w : world),
       exists w' tr,
         test_logcat pid pfd rd w = Done tt w' /\
         trace w' = trace w ++ tr ++ [EKill pid SIGTERM; EWaitpid pid]).
Proof.
  intros H. destruct (H 100 3 RNever world_init) as (w' & tr & Hrun & _).
  rewrite test_logcat_never in Hrun. discriminate.
Qed.

Lemma test_logcat_stays_disabled (pid pfd : Z) (rd : rres) :
  steps stays_disabled (test_logcat pid pfd rd).
Proof.
  intros w H0. destruct rd as [n|].
  - rewrite test_logcat_ret. cbn [world_of loggable]. now destruct (n =? 1).
  - rewrite test_logcat_never. exact H0.
Qed.

Lemma test_logcat_changes (pid pfd : Z) (rd : rres) (w : world) :
  loggable (world_of (test_logcat pid pfd rd w)) <> loggable w ->
  exists n, rd = RRet n /\ n <> 1 /\ loggable (world_of (test_logcat pid pfd rd w)) = 0.
Proof.
  destruct rd as [n|].
  - rewrite test_logcat_ret. cbn [world_of loggable].
    destruct (Z.eqb_spec n 1); [congruence|]. intros _. now exists n.
  - rewrite test_logcat_never. cbn [world_of loggable]. congruence.
Qed.

Lemma test_logcat_keeps_length (pid pfd : Z) (rd : rres) :
  steps (keeps (fun w => length (log_events w))) (test_logcat pid pfd rd).
Proof.
  intros w. destruct rd as [n|]; [rewrite test_logcat_ret | rewrite test_logcat_never];
    reflexivity.
Qed.

(** ** The outer loop and the flag *)

Lemma disable_all_eq (w : world) :
  table_ok w ->
  disable_all w =
    Done tt (World (loggable w) (thread w)
               (map (fun l => LogListener (-1) (filter l)) (log_events w))
               (lock w)
               (trace w ++ map (fun l => EClose (fd l)) (log_events w))).
Proof.
  destruct w as [g t tbl lk tr]. unfold table_ok. cbn [log_events].
  destruct tbl as [|a [|b [|c [|d tbl]]]]; try discriminate. intros _.
  unfold disable_all. cbn. now rewrite <- !app_assoc.
Qed.

Lemma log_daemon_loop_unfold (runs : list run_in) (w : world) :
  log_daemon_loop runs w =
    if loggable w =? 0 then disable_all w
    else match runs with
         | [] => Stuck w
         | r :: rest =>
             (emit (EExec logcat_argv (log_pid r) (log_fd r)) ;;
              (if fdopen_ok r then read_lines (log_pid r) (eof r) (lines r)
               else fail NullStream) ;;
              emit (EClose (log_fd r)) ;;
              emit (EKill (log_pid r) SIGTERM) ;;
              emit (EWaitpid (log_pid r)) ;;
              test_logcat (probe_pid r) (probe_fd r) (probe_read r) ;;
              log_daemon_loop rest) w
         end.
Proof.
  destruct runs as [|r rest]; cbn [log_daemon_loop]; unfold bind at 1, get_loggable;
    destruct (loggable w =? 0); reflexivity.
Qed.

(** The loop over the lines is entered with the stream [fdopen]
    answered; on the null stream nothing returns. *)
Lemma open_stream_Done (r : run_in) (w w' : world) (u : unit) :
  (if fdopen_ok r then read_lines (log_pid r) (eof r) (lines r)
   else fail NullStream) w = Done u w' ->
  fdopen_ok r = true /\ read_lines (log_pid r) (eof r) (lines r) w = Done u w'.
Proof. destruct (fdopen_ok r); [now split | discriminate]. Qed.

Lemma log_daemon_loop_stays_disabled (runs : list run_in) :
  steps stays_disabled (log_daemon_loop runs).
Proof.
  pose proof (steps_weaken _ _ _ keeps_stays_disabled disable_all_keeps_loggable).
  induction runs as [|r rest IH]; cbn [log_daemon_loop].
  - steps_tac.
  - pose proof (steps_weaken _ _ _ keeps_stays_disabled
                  (read_lines_keeps_loggable (log_pid r) (eof r) (lines r))).
    pose proof (test_logcat_stays_disabled (probe_pid r) (probe_fd r) (probe_read r)).
    steps_tac.
Qed.

Lemma test_logcat_changed_by_probe (r : run_in) (rest : list run_in) :
  steps (changed_by_probe (r :: rest))
    (test_logcat (probe_pid r) (probe_fd r) (probe_read r)).
Proof.
  intros w.
  destruct (Z.eq_dec
              (loggable (world_of (test_logcat (probe_pid r) (probe_fd r) (probe_read r) w)))
              (loggable w)) as [Heq|Hne].
  - now left.
  - right. destruct (test_logcat_changes _ _ _ _ Hne) as (n & Hr & Hn & _).
    exists r, n. split; [now apply elem_of_cons; left | auto].
Qed.

Lemma log_daemon_loop_changed_by_probe (runs : list run_in) :
  steps (changed_by_probe runs) (log_daemon_loop runs).
Proof.
  induction runs as [|r rest IH]; cbn [log_daemon_loop].
  - pose proof (steps_weaken _ _ _ (keeps_changed_by_probe []) disable_all_keeps_loggable).
    steps_tac.
  - pose proof (steps_weaken _ _ _ (keeps_changed_by_probe (r :: rest))
                  disable_all_keeps_loggable).
    pose proof (steps_weaken _ _ _ (keeps_changed_by_probe (r :: rest))
                  (read_lines_keeps_loggable (log_pid r) (eof r) (lines r))).
    pose proof (test_logcat_changed_by_probe r rest).
    pose proof (steps_weaken _ _ _ (changed_by_probe_cons r rest) IH).
    steps_tac.
Qed.

Lemma keeps_length_ok {A} (c : M A) (w w' : world) (a : A) :
  steps (keeps (fun w => length (log_events w))) c ->
  table_ok w -> c w = Done a w' -> table_ok w'.
Proof.
  intros Hc Hok Hrun. specialize (Hc w). rewrite Hrun in Hc.
  unfold keeps, table_ok in *. simpl in Hc. congruence.
Qed.

Lemma emit_Done (e : event) (w w' : world) (u : unit) :
  emit e w = Done u w' -> log_events w' = log_events w.
Proof. unfold emit. intros H. inversion H; subst. reflexivity. Qed.

(** With [loggable] cleared the loop closes every target, leaves every
    listener without target and returns, whatever is still to come. *)
Lemma log_daemon_loop_disabled (runs : list run_in) (w : world) :
  table_ok w ->
  loggable w = 0 ->
  log_daemon_loop runs w =
    Done tt (World 0 (thread w)
               (map (fun l => LogListener (-1) (filter l)) (log_events w))
               (lock w)
               (trace w ++ map (fun l => EClose (fd l)) (log_events w))).
Proof.
  intros Hok H0. rewrite log_daemon_loop_unfold, H0. cbn [Z.eqb].
  rewrite (disable_all_eq w Hok). now rewrite H0.
Qed.

Lemma all_absent_map (g t : Z) (tbl : list log_listener) (lk : bool) (tr : list event) :
  all_absent (World g t (map (fun l => LogListener (-1) (filter l)) tbl) lk tr).
Proof.
  intros l Hl. cbn [log_events] in Hl.
  apply list_elem_of_fmap in Hl as (l0 & -> & _). reflexivity.
Qed.

(** The loop returns only through the branch of line 125. *)
Lemma log_daemon_loop_returns (runs : list run_in) :
  forall (w w' : world),
    table_ok w ->
    log_daemon_loop runs w = Done tt w' ->
    loggable w' = 0 /\ all_absent w' /\ table_ok w'.
Proof.
  induction runs as [|r rest IH]; intros w w' Hok Hrun;
    rewrite log_daemon_loop_unfold in Hrun;
    destruct (Z.eqb_spec (loggable w) 0) as [H0|Hn0].
  - rewrite (disable_all_eq w Hok) in Hrun. injection Hrun as <-.
    split; [exact H0|]. split; [apply all_absent_map|].
    unfold table_ok in *. cbn [log_events]. now rewrite length_map.
  - discriminate.
  - rewrite (disable_all_eq w Hok) in Hrun. injection Hrun as <-.
    split; [exact H0|]. split; [apply all_absent_map|].
    unfold table_ok in *. cbn [log_events]. now rewrite length_map.
  - apply bind_Done_inv in Hrun as (u1 & w1 & Hex & Hrun).
    apply bind_Done_inv in Hrun as (u2 & w2 & Hrd & Hrun).
    apply open_stream_Done in Hrd as [_ Hrd].
    apply bind_Done_inv in Hrun as (u3 & w3 & Hcl & Hrun).
    apply bind_Done_inv in Hrun as (u4 & w4 & Hkl & Hrun).
    apply bind_Done_inv in Hrun as (u5 & w5 & Hwt & Hrun).
    apply bind_Done_inv in Hrun as (u6 & w6 & Hpr & Hrun).
    destruct u6. apply (IH w6 w'); [|exact Hrun].
    apply (keeps_length_ok _ _ _ _ (test_logcat_keeps_length _ _ _)) in Hpr;
      [exact Hpr|].
    unfold table_ok. rewrite (emit_Done _ _ _ _ Hwt), (emit_Done _ _ _ _ Hkl),
      (emit_Done _ _ _ _ Hcl).
    apply (keeps_length_ok _ _ _ _ (read_lines_keeps_length _ _ _)) in Hrd;
      [exact Hrd|].
    unfold table_ok. now rewrite (emit_Done _ _ _ _ Hex).
Qed.

(** [log_daemon] as a whole, from the initial values of the globals. *)
Lemma log_daemon_returns (debug : bool) (logfile_fd debug_fd : Z) (runs : list run_in)
    (w' : world) :
  log_daemon debug logfile_fd debug_fd runs world_init = Done tt w' ->
  loggable w' = 0 /\ all_absent w'.
Proof.
  unfold log_daemon. intros Hrun.
  apply bind_Done_inv in Hrun as (u1 & w1 & H1 & Hrun).
  apply bind_Done_inv in Hrun as (u2 & w2 & H2 & Hrun).
  assert (Hok1 : table_ok w1).
  { eapply (keeps_length_ok (set_fd LOG_EVENT logfile_fd)); [steps_tac | | exact H1].
    reflexivity. }
  assert (Hok2 : table_ok w2).
  { destruct debug.
    - eapply (keeps_length_ok (set_fd DEBUG_EVENT debug_fd)); [steps_tac | exact Hok1 | exact H2].
    - unfold ret in H2. inversion H2; subst. exact Hok1. }
  destruct (log_daemon_loop_returns runs w2 w' Hok2 Hrun) as (H0 & Habs & _).
  now split.
Qed.

(** C2: [loggable] starts as 1. No function sets it once it is 0, and
    the only thing that changes it is a probe whose read did not deliver
    one byte, which clears it. With [loggable] cleared the loop of
    [log_daemon] closes the target of every listener, sets every [fd] to
    -1 and returns without starting anything; and whenever that loop
    returns, [loggable] is 0 and every listener is without target. *)
Theorem loggable_is_one_way :
  loggable world_init = 1 /\
  (forall pid pfd rd, steps stays_disabled (test_logcat pid pfd rd)) /\
  (forall runs, steps stays_disabled (log_daemon_loop runs)) /\
  (forall pid pfd rd w,
     loggable (world_of (test_logcat pid pfd rd w)) <> loggable w ->
     exists n, rd = RRet n /\ n <> 1 /\
               loggable (world_of (test_logcat pid pfd rd w)) = 0) /\
  steps (keeps loggable) sigpipe_handler /\
  (forall l, steps (keeps loggable) (locked_pass l)) /\
  (forall pid eof ls, steps (keeps loggable) (read_lines pid eof ls)) /\
  steps (keeps loggable) disable_all /\
  (forall hide_connect conns,
     steps (keeps loggable) (socket_thread hide_connect conns)) /\
  (forall runs, steps (changed_by_probe runs) (log_daemon_loop runs)) /\
  (forall runs w,
     table_ok w -> loggable w = 0 ->
     log_daemon_loop runs w =
       Done tt (World 0 (thread w)
                  (map (fun l => LogListener (-1) (filter l)) (log_events w))
                  (lock w)
                  (trace w ++ map (fun l => EClose (fd l)) (log_events w)))) /\
  (forall runs w w',
     table_ok w -> log_daemon_loop runs w = Done tt w' ->
     loggable w' = 0 /\ all_absent w') /\
  (forall debug logfile_fd debug_fd runs w',
     log_daemon debug logfile_fd debug_fd runs world_init = Done tt w' ->
     loggable w' = 0 /\ all_absent w').
Proof.
  split; [reflexivity|].
  split; [apply test_logcat_stays_disabled|].
  split; [apply log_daemon_loop_stays_disabled|].
  split; [apply test_logcat_changes|].
  split; [apply sigpipe_handler_keeps_loggable|].
  split; [apply locked_pass_keeps_loggable|].
  split; [apply read_lines_keeps_loggable|].
  split; [apply disable_all_keeps_loggable|].
  split; [apply socket_thread_keeps_loggable|].
  split; [apply log_daemon_loop_changed_by_probe|].
  split; [apply log_daemon_loop_disabled|].
  split.
  - intros runs w w' Hok Hrun.
    destruct (log_daemon_loop_returns runs w w' Hok Hrun) as (H0 & Habs & _).
    now split.
  - apply log_daemon_returns.
Qed.

(** ** The acceptor thread *)

Lemma serve_reject (HIDE_CONNECT conn code : Z) (w : world) :
  code <> HIDE_CONNECT ->
  serve HIDE_CONNECT conn code w =
    Done false (World (loggable w) (thread w) (log_events w) (lock w)
                  (trace w ++ [EAccept conn; EClose conn])).
Proof.
  intros Hne. unfold serve, bind, emit, ret.
  destruct (Z.eqb_spec code HIDE_CONNECT) as [|_]; [contradiction|].
  cbn [loggable thread log_events lock trace]. now rewrite <- app_assoc.
Qed.

Lemma serve_install (HIDE_CONNECT conn : Z) (w : world) (h : log_listener) :
  log_events w !! HIDE_EVENT = Some h ->
  lock w = false ->
  serve HIDE_CONNECT conn HIDE_CONNECT w =
    Done true (World (loggable w) (thread w) (install_hide conn (log_events w)) false
                 (trace w ++ [EAccept conn; ELock; EUnlock])).
Proof.
  intros Hh Hfree. destruct w as [g t tbl lk tr].
  cbn [loggable thread log_events lock trace] in *. subst lk.
  unfold serve. rewrite Z.eqb_refl.
  unfold bind, emit, ret, pthread_mutex_lock, set_fd, pthread_mutex_unlock.
  cbn [loggable thread log_events lock trace]. rewrite Hh.
  cbn [loggable thread log_events lock trace].
  now rewrite <- !app_assoc.
Qed.

Lemma serve_waits (HIDE_CONNECT conn : Z) (w : world) :
  lock w = true ->
  serve HIDE_CONNECT conn HIDE_CONNECT w =
    Stuck (World (loggable w) (thread w) (log_events w) true (trace w ++ [EAccept conn])).
Proof.
  intros Hheld. unfold serve, bind, emit, pthread_mutex_lock.
  rewrite Z.eqb_refl. cbn [loggable thread log_events lock trace].
  now rewrite Hheld.
Qed.


(** ** The two threads together *)

Lemma keeps_Done {T A} (proj : world -> T) (c : M A) (w w' : world) (a : A) :
  steps (keeps proj) c -> c w = Done a w' -> proj w' = proj w.
Proof. intros Hc Hrun. specialize (Hc w). now rewrite Hrun in Hc. Qed.

Lemma test_logcat_keeps_thread (pid pfd : Z) (rd : rres) :
  steps (keeps thread) (test_logcat pid pfd rd).
Proof. unfold test_logcat. steps_tac. Qed.

Lemma test_logcat_keeps_lock (pid pfd : Z) (rd : rres) :
  steps (keeps lock) (test_logcat pid pfd rd).
Proof. unfold test_logcat. steps_tac. Qed.

Lemma sigpipe_handler_keeps_thread : steps (keeps thread) sigpipe_handler.
Proof. unfold sigpipe_handler. steps_tac. Qed.

Lemma sigpipe_handler_keeps_lock : steps (keeps lock) sigpipe_handler.
Proof. unfold sigpipe_handler. steps_tac. Qed.

Lemma disable_all_keeps_thread : steps (keeps thread) disable_all.
Proof. unfold disable_all. steps_tac. Qed.

Lemma disable_all_keeps_lock : steps (keeps lock) disable_all.
Proof. unfold disable_all. steps_tac. Qed.

Lemma dispatch_keeps_thread (line : string) (len : Z) (wr : nat -> wres) :
  steps (keeps thread) (dispatch line len wr).
Proof.
  unfold dispatch, dispatch_slot, write_fd. steps_tac. destruct (wr _); steps_tac.
Qed.

Lemma dispatch_keeps_lock (line : string) (len : Z) (wr : nat -> wres) :
  steps (keeps lock) (dispatch line len wr).
Proof.
  unfold dispatch, dispatch_slot, write_fd. steps_tac. destruct (wr _); steps_tac.
Qed.

Lemma serve_keeps_thread (HIDE_CONNECT conn code : Z) :
  steps (keeps thread) (serve HIDE_CONNECT conn code).
Proof. unfold serve. steps_tac. Qed.

(** The first half of the pass: the guard is taken and kept. *)
Lemma enter_pass (line : string) (len : Z) (wr : nat -> wres) (w w' : world) (u : unit) :
  (pthread_mutex_lock ;; dispatch line len wr) w = Done u w' ->
  lock w = false /\ lock w' = true /\ thread w' = thread w.
Proof.
  intros Hrun. apply bind_Done_inv in Hrun as (u1 & w1 & Hl & Hd).
  unfold pthread_mutex_lock in Hl. destruct (lock w) eqn:Hfree; [discriminate|].
  inversion Hl; subst. clear Hl.
  pose proof (keeps_Done _ _ _ _ _ (dispatch_keeps_lock line len wr) Hd) as H1.
  pose proof (keeps_Done _ _ _ _ _ (dispatch_keeps_thread line len wr) Hd) as H2.
  auto.
Qed.

(** The second half: the test of line 151, the creation of the thread,
    the release of the guard. *)
Lemma leave_pass (tid : Z) (w w' : world) (b : bool) :
  (b <- rearm tid ;; pthread_mutex_unlock ;; ret b) w = Done b w' ->
  lock w' = false /\
  log_events w' = log_events w /\
  (b = true ->
     thread w < 0 /\ thread w' = tid /\
     exists h, log_events w !! HIDE_EVENT = Some h /\ fd h < 0) /\
  (b = false -> thread w' = thread w).
Proof.
  unfold rearm, bind, get_thread, get_fd, set_thread, emit, pthread_mutex_unlock, ret.
  destruct (Z.ltb_spec (thread w) 0) as [Ht|Ht].
  - destruct (log_events w !! HIDE_EVENT) as [h|] eqn:Hh; [|discriminate].
    destruct (Z.ltb_spec (fd h) 0) as [Hf|Hf]; intros Hrun; inversion Hrun; subst;
      cbn [loggable thread log_events lock trace]; repeat split; try discriminate; auto.
    now exists h.
  - intros Hrun; inversion Hrun; subst.
    cbn [loggable thread log_events lock trace]; repeat split; try discriminate; auto.
Qed.

Lemma sys_inv_init : sys_inv sys_init.
Proof. split; [reflexivity|]. left. split; [reflexivity | simpl; lia]. Qed.

Lemma sys_inv_started (debug : bool) (logfile_fd debug_fd : Z) :
  sys_inv (sys_started debug logfile_fd debug_fd).
Proof.
  destruct debug; (split; [reflexivity|]); left; (split; [reflexivity | simpl; lia]).
Qed.

(** [sys_started] is where [log_daemon] enters its loop. *)
Lemma log_daemon_from_started (debug : bool) (logfile_fd debug_fd : Z)
    (runs : list run_in) :
  log_daemon debug logfile_fd debug_fd runs world_init =
  log_daemon_loop runs (sw (sys_started debug logfile_fd debug_fd)).
Proof. destruct debug; reflexivity. Qed.

Lemma sys_inv_same (s : sys) (w' : world) :
  sys_inv s ->
  lock w' = lock (sw s) ->
  thread w' = thread (sw s) ->
  sys_inv (Sys w' (in_pass s) (acceptors s)).
Proof.
  intros [Hl Ha] Hl' Ht'. split; cbn [sw in_pass acceptors].
  - congruence.
  - rewrite Ht'. exact Ha.
Qed.

(** Every step keeps the invariant, provided the handle of a created
    thread is not negative. *)
Lemma step_inv (HIDE_CONNECT : Z) (s s' : sys) (o : op) :
  sys_inv s ->
  (forall t, o = OpRearm t -> 0 <= t) ->
  step HIDE_CONNECT s o = Some s' ->
  sys_inv s'.
Proof.
  intros Hinv Htid. pose proof Hinv as [Hlock Hacc].
  destruct o as [pid pfd rd| | |line wr|tid|k conn code|k]; cbn [step].
  - destruct (in_pass s) eqn:Hp; [discriminate|].
    destruct (test_logcat pid pfd rd (sw s)) as [u w'|f w'|w'] eqn:Hrun; try discriminate.
    intros [= <-]. rewrite <- Hp. apply sys_inv_same; [assumption| |].
    + apply (keeps_Done _ _ _ _ _ (test_logcat_keeps_lock pid pfd rd) Hrun).
    + apply (keeps_Done _ _ _ _ _ (test_logcat_keeps_thread pid pfd rd) Hrun).
  - destruct (sigpipe_handler (sw s)) as [u w'|f w'|w'] eqn:Hrun; try discriminate.
    intros [= <-]. apply sys_inv_same; [assumption| |].
    + apply (keeps_Done _ _ _ _ _ sigpipe_handler_keeps_lock Hrun).
    + apply (keeps_Done _ _ _ _ _ sigpipe_handler_keeps_thread Hrun).
  - destruct (in_pass s) eqn:Hp; [discriminate|].
    destruct (negb (loggable (sw s) =? 0)); [discriminate|].
    destruct (disable_all (sw s)) as [u w'|f w'|w'] eqn:Hrun; try discriminate.
    intros [= <-]. rewrite <- Hp. apply sys_inv_same; [assumption| |].
    + apply (keeps_Done _ _ _ _ _ disable_all_keeps_lock Hrun).
    + apply (keeps_Done _ _ _ _ _ disable_all_keeps_thread Hrun).
  - destruct (in_pass s) eqn:Hp; [discriminate|].
    destruct (Ascii.eqb (first_char line) "-"); [discriminate|].
    destruct ((pthread_mutex_lock ;; dispatch line (strlen line) wr) (sw s))
      as [u w'|f w'|w'] eqn:Hrun; try discriminate.
    intros [= <-]. apply enter_pass in Hrun as (_ & Hl' & Ht').
    split; cbn [sw in_pass acceptors]; [assumption|]. now rewrite Ht'.
  - destruct (in_pass s) eqn:Hp; [|discriminate]. cbn [negb].
    destruct ((b <- rearm tid ;; pthread_mutex_unlock ;; ret b) (sw s))
      as [b w'|f w'|w'] eqn:Hrun; try discriminate.
    intros [= <-]. apply leave_pass in Hrun as (Hl' & _ & Hyes & Hno).
    split; cbn [sw in_pass acceptors]; [assumption|].
    destruct b.
    + destruct (Hyes eq_refl) as (Hneg & Ht' & _).
      destruct Hacc as [[Hnil _]|(a & _ & Hpos)]; [|lia].
      right. exists Serving. rewrite Hnil. split; [reflexivity|].
      rewrite Ht'. now apply Htid.
    + rewrite (Hno eq_refl). exact Hacc.
  - destruct (acceptors s !! k) as [[|]|] eqn:Hk; try discriminate.
    destruct (serve HIDE_CONNECT conn code (sw s)) as [b w'|f w'|w'] eqn:Hrun;
      try discriminate.
    intros [= <-].
    pose proof (keeps_Done _ _ _ _ _ (serve_keeps_thread HIDE_CONNECT conn code) Hrun) as Ht'.
    destruct Hacc as [[Hnil _]|(a & Hone & Hpos)];
      [rewrite Hnil in Hk; discriminate|].
    rewrite Hone in Hk. destruct k as [|k]; [|discriminate].
    split; cbn [sw in_pass acceptors].
    + destruct (Z.eq_dec code HIDE_CONNECT) as [->|Hne].
      * destruct (lock (sw s)) eqn:Hfree.
        -- rewrite serve_waits in Hrun by assumption. discriminate.
        -- unfold serve, bind, emit, pthread_mutex_lock, set_fd,
             pthread_mutex_unlock, ret in Hrun.
           rewrite Z.eqb_refl in Hrun.
           cbn [loggable thread log_events lock trace] in Hrun.
           rewrite Hfree in Hrun.
           cbn [loggable thread log_events lock trace] in Hrun.
           destruct (log_events (sw s) !! HIDE_EVENT); [|discriminate].
           inversion Hrun; subst. cbn [lock]. congruence.
      * rewrite serve_reject in Hrun by assumption. inversion Hrun; subst.
        cbn [lock]. assumption.
    + right. rewrite Ht'. rewrite Hone.
      destruct b; [exists Installed | exists a]; split; auto.
  - destruct (acceptors s !! k) as [[|]|] eqn:Hk; try discriminate.
    unfold set_thread. intros [= <-].
    destruct Hacc as [[Hnil _]|(a & Hone & Hpos)];
      [rewrite Hnil in Hk; discriminate|].
    rewrite Hone in Hk. destruct k as [|k]; [|discriminate].
    split; cbn [sw in_pass acceptors loggable thread log_events lock trace].
    + assumption.
    + left. rewrite Hone. split; [reflexivity | lia].
Qed.

(** An acceptor comes into being only by the test of line 151. *)
Lemma step_spawn (HIDE_CONNECT : Z) (s s' : sys) (o : op) :
  sys_inv s ->
  step HIDE_CONNECT s o = Some s' ->
  (length (acceptors s) < length (acceptors s'))%nat ->
  exists tid,
    o = OpRearm tid /\
    in_pass s = true /\ lock (sw s) = true /\
    acceptors s = [] /\ thread (sw s) < 0 /\
    (exists h, log_events (sw s) !! HIDE_EVENT = Some h /\ fd h < 0) /\
    acceptors s' = [Serving] /\ thread (sw s') = tid /\
    in_pass s' = false /\ lock (sw s') = false.
Proof.
  intros [Hlock Hacc].
  destruct o as [pid pfd rd| | |line wr|tid|k conn code|k]; cbn [step].
  - destruct (in_pass s); [discriminate|].
    destruct (test_logcat pid pfd rd (sw s)); try discriminate.
    intros [= <-]. cbn [acceptors]. lia.
  - destruct (sigpipe_handler (sw s)); try discriminate.
    intros [= <-]. cbn [acceptors]. lia.
  - destruct (in_pass s); [discriminate|].
    destruct (negb (loggable (sw s) =? 0)); [discriminate|].
    destruct (disable_all (sw s)); try discriminate.
    intros [= <-]. cbn [acceptors]. lia.
  - destruct (in_pass s); [discriminate|].
    destruct (Ascii.eqb (first_char line) "-"); [discriminate|].
    destruct ((pthread_mutex_lock ;; dispatch line (strlen line) wr) (sw s));
      try discriminate.
    intros [= <-]. cbn [acceptors]. lia.
  - destruct (in_pass s) eqn:Hp; [|discriminate]. cbn [negb].
    destruct ((b <- rearm tid ;; pthread_mutex_unlock ;; ret b) (sw s))
      as [b w'|f w'|w'] eqn:Hrun; try discriminate.
    intros [= <-]. cbn [acceptors sw in_pass].
    apply leave_pass in Hrun as (Hl' & _ & Hyes & _).
    destruct b; [|lia]. intros _.
    destruct (Hyes eq_refl) as (Hneg & Ht' & Hh).
    destruct Hacc as [[Hnil _]|(a & _ & Hpos)]; [|lia].
    exists tid. rewrite Hnil. repeat split; auto.
  - destruct (acceptors s !! k) as [[|]|]; try discriminate.
    destruct (serve HIDE_CONNECT conn code (sw s)) as [b w'|f w'|w']; try discriminate.
    intros [= <-]. cbn [acceptors]. destruct b; [rewrite length_insert|]; lia.
  - destruct (acceptors s !! k) as [[|]|] eqn:Hk; try discriminate.
    unfold set_thread. intros [= <-]. cbn [acceptors].
    rewrite length_delete by eauto. lia.
Qed.

Lemma tids_cons (o : op) (os : list op) :
  Forall (fun t => 0 <= t) (tids (o :: os)) ->
  (forall t, o = OpRearm t -> 0 <= t) /\ Forall (fun t => 0 <= t) (tids os).
Proof.
  unfold tids. destruct o; cbn [omap]; intros H; try (split; [discriminate | exact H]).
  apply Forall_cons in H as [Ht H]. split; [|exact H].
  intros t' [= <-]. exact Ht.
Qed.

Lemma run_inv (HIDE_CONNECT : Z) (os : list op) :
  forall (s s' : sys),
    sys_inv s ->
    Forall (fun t => 0 <= t) (tids os) ->
    run HIDE_CONNECT s os = Some s' ->
    sys_inv s'.
Proof.
  induction os as [|o os IH]; intros s s' Hinv Htids; cbn [run].
  - now intros [= <-].
  - destruct (step HIDE_CONNECT s o) as [s1|] eqn:Hstep; [|discriminate].
    apply tids_cons in Htids as [Ho Hos].
    apply IH; [|exact Hos]. eapply step_inv; eauto.
Qed.

(** The two steps of the dispatch loop make up the pass of lines
    145-156. *)
Lemma pass_in_two_steps (HIDE_CONNECT : Z) (s s1 s2 : sys)
    (line : string) (answers : nat -> wres) (handle live : Z) :
  step HIDE_CONNECT s (OpDispatch line answers) = Some s1 ->
  step HIDE_CONNECT s1 (OpRearm handle) = Some s2 ->
  exists b, locked_pass (LineIn line answers handle live) (sw s) = Done b (sw s2).
Proof.
  cbn [step].
  destruct (in_pass s); [discriminate|].
  destruct (Ascii.eqb (first_char line) "-"); [discriminate|].
  destruct ((pthread_mutex_lock ;; dispatch line (strlen line) answers) (sw s))
    as [u w1|f w1|w1] eqn:H1; try discriminate.
  intros [= <-]. cbn [in_pass negb sw].
  destruct ((b <- rearm handle ;; pthread_mutex_unlock ;; ret b) w1)
    as [b w2|f w2|w2] eqn:H2; try discriminate.
  intros [= <-]. exists b. cbn [sw].
  unfold locked_pass. cbn [text wr tid].
  rewrite <- H2. unfold bind at 1 in H1. unfold bind at 1.
  destruct (pthread_mutex_lock (sw s)) as [u0 w0|f0 w0|w0]; try discriminate.
  unfold bind at 1. now rewrite H1.
Qed.

(** X16: with handles that are not negative the loop keeps to one
    acceptor: in every state the two threads reach from a state where
    the guard is held exactly inside the pass and [thread] is a handle
    exactly when an acceptor exists, there is at most one acceptor,
    [thread] is negative exactly when there is none, and the guard is
    held exactly while the dispatch loop is inside its pass. An acceptor
    is created only by the test of line 151, in a state where there is
    none, where the hide listener has no target ([fd < 0]) and where the
    dispatch loop holds the guard it took for the writes of the line; in
    the trace of a pass the creation lies between the same [ELock] and
    [EUnlock] as the writes. *)
Theorem one_acceptor_at_a_time (HIDE_CONNECT : Z) (os : list op) (s0 s : sys) :
  sys_inv s0 ->
  Forall (fun t => 0 <= t) (tids os) ->
  run HIDE_CONNECT s0 os = Some s ->
  (length (acceptors s) <= 1)%nat /\
  (acceptors s = [] <-> thread (sw s) < 0) /\
  lock (sw s) = in_pass s /\
  (forall o s',
     step HIDE_CONNECT s o = Some s' ->
     (length (acceptors s) < length (acceptors s'))%nat ->
     exists tid,
       o = OpRearm tid /\
       in_pass s = true /\ lock (sw s) = true /\
       acceptors s = [] /\ thread (sw s) < 0 /\
       (exists h, log_events (sw s) !! HIDE_EVENT = Some h /\ fd h < 0) /\
       acceptors s' = [Serving] /\ thread (sw s') = tid /\
       in_pass s' = false /\ lock (sw s') = false) /\
  (forall l w b w',
     table_ok w ->
     locked_pass l w = Done b w' ->
     exists tr1 h,
       trace w' = trace w ++
         ELock :: tr1 ++ (if b then [ESpawn (tid l)] else []) ++ [EUnlock] /\
       (forall e, e ∈ tr1 ->
          (exists i f, e = EWrite i f (text l) (strlen (text l))) \/
          (exists f, e = EClose f)) /\
       log_events w' !! HIDE_EVENT = Some h /\
       (b = true <-> thread w < 0 /\ fd h < 0)).
Proof.
  intros Hinv0 Htids Hrun.
  pose proof (run_inv HIDE_CONNECT os s0 s Hinv0 Htids Hrun) as Hinv.
  pose proof Hinv as [Hlock Hacc].
  split; [|split; [|split; [|split]]].
  - destruct Hacc as [[-> _]|(a & -> & _)]; simpl; lia.
  - destruct Hacc as [[Hnil Hneg]|(a & Hone & Hpos)].
    + now split.
    + rewrite Hone. split; [discriminate | lia].
  - assumption.
  - intros o s' Hstep Hgrow. eapply step_spawn; eauto.
  - intros l w b w' Hok Hpass.
    destruct (locked_pass_trace l w w' b Hok Hpass) as (tr1 & Htr & _ & Hev).
    destruct (lock w) eqn:Hfree.
    { rewrite locked_pass_needs_guard in Hpass by assumption. discriminate. }
    pose proof (locked_pass_spec l w Hok Hfree) as Hs. rewrite Hpass in Hs.
    destruct Hs as (w1 & h & _ & Hh & Hb & ->).
    exists tr1, h. split; [exact Htr|]. split; [exact Hev|].
    split; [exact Hh|].
    rewrite Hb, andb_true_iff, !Z.ltb_lt. reflexivity.
Qed.

(** C3, where the code departs from it: the test of line 151 takes a
    negative [thread] for "no acceptor", and a handle can be negative.
    The daemon is started with the log file on descriptor 8. The first
    line finds no subscriber and no acceptor and creates one, whose
    handle 0xB6E00000 is negative as a [long]. No subscriber connects,
    so that acceptor is still waiting in [accept4] when the second line
    is handled: the hide listener is still without target, [thread] is
    negative, and a second acceptor is created under the guard while the
    first is outstanding. Both lines went to the log file as they
    should. *)
Theorem negative_handle_second_acceptor :
  exists s1 s2 : sys,
    run 12 (sys_started false 8 0) first_pass = Some s1 /\
    acceptors s1 = [Serving] /\
    thread (sw s1) = high_handle /\
    thread (sw s1) < 0 /\
    log_events (sw s1) !! HIDE_EVENT = Some (LogListener (-1) am_proc_start_filter) /\
    run 12 s1 second_pass = Some s2 /\
    acceptors s2 = [Serving; Serving] /\
    thread (sw s2) = high_handle' /\
    trace (sw s2) =
      [ ELock; EWrite LOG_EVENT 8 info_line (strlen info_line);
        ESpawn high_handle; EUnlock;
        ELock; EWrite LOG_EVENT 8 marker_free_line (strlen marker_free_line);
        ESpawn high_handle'; EUnlock ].
Proof.
  exists (Sys (World 1 high_handle
                 [ LogListener (-1) am_proc_start_filter;
                   LogListener 8 magisk_log_filter;
                   LogListener (-1) magisk_debug_log_filter ]
                 false
                 [ ELock; EWrite LOG_EVENT 8 info_line (strlen info_line);
                   ESpawn high_handle; EUnlock ])
            false [Serving]).
  eexists.
  split; [vm_compute; reflexivity|]. split; [reflexivity|]. split; [reflexivity|].
  split; [reflexivity|]. split; [reflexivity|]. split; [vm_compute; reflexivity|].
  split; [reflexivity|]. split; reflexivity.
Qed.

(** * Further properties of the code *)

(** ** The persist filter on every line *)

Lemma strstr_zero (h n : string) :
  strstr h n = Some 0%nat <-> String.prefix n h = true.
Proof.
  destruct h as [|c h]; [rewrite strstr_nil | rewrite strstr_cons];
    destruct (String.prefix n _) eqn:Hp; split; try congruence.
  destruct (strstr h n); discriminate.
Qed.

Lemma begins_with_tag_strstr (log : string) :
  begins_with_tag log <-> strstr log " Magisk" = Some 0%nat.
Proof. unfold begins_with_tag. now rewrite strstr_zero, prefix_split. Qed.

Lemma magisk_log_filter_fault (log : string) (f : fault) :
  magisk_log_filter log = Err f <->
  f = OutOfBounds (-1) /\ begins_with_tag log.
Proof.
  split.
  - intros Hf. destruct (strstr log " Magisk") as [[|k]|] eqn:Hs.
    + rewrite (magisk_log_filter_at _ _ Hs) in Hf.
      rewrite load_before in Hf by lia. injection Hf as <-.
      split; [reflexivity | now apply begins_with_tag_strstr].
    + rewrite (magisk_log_filter_at _ _ Hs) in Hf.
      destruct (occurs_at_get _ _ _ (proj1 (strstr_Some _ _ _ Hs))) as [c Hc].
      replace (Z.of_nat (S k) + -1) with (Z.of_nat k) in Hf by lia.
      rewrite (load_get _ _ _ Hc) in Hf. discriminate.
    + unfold magisk_log_filter in Hf. rewrite Hs in Hf. discriminate.
  - intros [-> Hb]. apply begins_with_tag_strstr in Hb.
    rewrite (magisk_log_filter_at _ _ Hb). now rewrite load_before by lia.
Qed.

(** X1: the persist filter has no defined answer exactly on the lines
    that begin with the tag " Magisk", and what goes wrong there is the
    load one character before the start of the line. *)
Theorem magisk_log_filter_fault_iff (log : string) (f : fault) :
  magisk_log_filter log = Err f <->
  f = OutOfBounds (-1) /\ begins_with_tag log.
Proof. apply magisk_log_filter_fault. Qed.

(** X2: the persist filter answers false exactly on the lines without
    the tag " Magisk" and on those where the character just before its
    first occurrence is 'D' or 'V': the debug and verbose messages of the
    daemon are the only tagged lines kept out of the log file. *)
Theorem magisk_log_filter_false_iff (log : string) :
  magisk_log_filter log = Ok false <->
  ~ contains " Magisk" log \/
  exists (i : nat) (c : ascii),
    first_occurrence " Magisk" log i /\
    (0 < i)%nat /\
    String.get (i - 1) log = Some c /\
    (c = "D"%char \/ c = "V"%char).
Proof.
  split.
  - intros Hf. destruct (strstr log " Magisk") as [i|] eqn:Hs.
    + right. rewrite (magisk_log_filter_at _ _ Hs) in Hf.
      destruct i as [|k]; [rewrite load_before in Hf by lia; discriminate|].
      pose proof (strstr_Some _ _ _ Hs) as Hfo.
      destruct (occurs_at_get _ _ _ (proj1 Hfo)) as [c Hc].
      replace (Z.of_nat (S k) + -1) with (Z.of_nat k) in Hf by lia.
      rewrite (load_get _ _ _ Hc) in Hf. simpl in Hf. injection Hf as Hf.
      exists (S k), c. replace (S k - 1)%nat with k by lia.
      split; [exact Hfo|]. split; [lia|]. split; [exact Hc|].
      apply andb_false_iff in Hf as [Hf|Hf]; apply negb_false_iff, Ascii.eqb_eq in Hf; auto.
    + left. now apply strstr_None.
  - intros [Hno|(i & c & Hfo & Hpos & Hc & Hdv)].
    + unfold magisk_log_filter. destruct (strstr log " Magisk") as [i|] eqn:Hs;
        [|reflexivity].
      exfalso. apply Hno. exists i. apply (strstr_Some _ _ _ Hs).
    + apply strstr_first in Hfo. rewrite (magisk_log_filter_at _ _ Hfo).
      replace (Z.of_nat i + -1) with (Z.of_nat (i - 1)) by lia.
      rewrite (load_get _ _ _ Hc). simpl.
      destruct Hdv as [-> | ->]; reflexivity.
Qed.

(** ** What the functions leave of the table *)

Section TableView.

Context {T : Type}.
Variable g : list log_listener -> T.

(** [g] does not look at the target of the hide listener. *)
Hypothesis g_hide : forall v tbl,
  g (alter (fun l => LogListener v (filter l)) HIDE_EVENT tbl) = g tbl.

Lemma view_set_hide (v : Z) :
  steps (keeps (fun w => g (log_events w))) (set_fd HIDE_EVENT v).
Proof.
  intros w. unfold set_fd, keeps.
  destruct (log_events w !! HIDE_EVENT); cbn [world_of log_events]; [apply g_hide | reflexivity].
Qed.

Lemma view_sigpipe_handler :
  steps (keeps (fun w => g (log_events w))) sigpipe_handler.
Proof. pose proof view_set_hide. unfold sigpipe_handler. steps_tac. Qed.

Lemma view_dispatch (line : string) (len : Z) (wr : nat -> wres) :
  steps (keeps (fun w => g (log_events w))) (dispatch line len wr).
Proof.
  pose proof view_sigpipe_handler.
  unfold dispatch, dispatch_slot, write_fd. steps_tac. destruct (wr _); steps_tac.
Qed.

Lemma view_locked_pass (l : line_in) :
  steps (keeps (fun w => g (log_events w))) (locked_pass l).
Proof.
  pose proof (view_dispatch (text l)). unfold locked_pass, rearm. steps_tac.
Qed.

Lemma view_read_lines (pid : Z) (eof : bool) (ls : list line_in) :
  steps (keeps (fun w => g (log_events w))) (read_lines pid eof ls).
Proof.
  induction ls as [|l rest IH]; cbn [read_lines].
  - destruct eof; steps_tac.
  - pose proof (view_locked_pass l). steps_tac.
Qed.

Lemma view_test_logcat (pid pfd : Z) (rd : rres) :
  steps (keeps (fun w => g (log_events w))) (test_logcat pid pfd rd).
Proof. unfold test_logcat. steps_tac. Qed.

Lemma view_serve (HIDE_CONNECT conn code : Z) :
  steps (keeps (fun w => g (log_events w))) (serve HIDE_CONNECT conn code).
Proof. pose proof view_set_hide. unfold serve. steps_tac. Qed.

Lemma view_socket_thread (HIDE_CONNECT : Z) (conns : list (Z * Z)) :
  steps (keeps (fun w => g (log_events w))) (socket_thread HIDE_CONNECT conns).
Proof.
  induction conns as [|[conn code] rest IH]; cbn [socket_thread].
  - steps_tac.
  - pose proof (view_serve HIDE_CONNECT conn code). steps_tac.
Qed.

(** Every step of the two threads but the teardown. *)
Lemma view_step (HIDE_CONNECT : Z) (s s' : sys) (o : op) :
  o <> OpDisable ->
  step HIDE_CONNECT s o = Some s' ->
  g (log_events (sw s')) = g (log_events (sw s)).
Proof.
  intros Hno.
  destruct o as [pid pfd rd| | |line wr|tid|k conn code|k]; cbn [step];
    try contradiction.
  - destruct (in_pass s); [discriminate|].
    destruct (test_logcat pid pfd rd (sw s)) as [u w'|f w'|w'] eqn:Hrun; try discriminate.
    intros [= <-]. apply (keeps_Done _ _ _ _ _ (view_test_logcat pid pfd rd) Hrun).
  - destruct (sigpipe_handler (sw s)) as [u w'|f w'|w'] eqn:Hrun; try discriminate.
    intros [= <-]. apply (keeps_Done _ _ _ _ _ view_sigpipe_handler Hrun).
  - destruct (in_pass s); [discriminate|].
    destruct (Ascii.eqb (first_char line) "-"); [discriminate|].
    destruct ((pthread_mutex_lock ;; dispatch line (strlen line) wr) (sw s))
      as [u w'|f w'|w'] eqn:Hrun; try discriminate.
    intros [= <-]. cbn [sw].
    refine (keeps_Done (fun w => g (log_events w)) _ _ _ _ _ Hrun).
    pose proof (view_dispatch line). steps_tac.
  - destruct (negb (in_pass s)); [discriminate|].
    destruct ((b <- rearm tid ;; pthread_mutex_unlock ;; ret b) (sw s))
      as [b w'|f w'|w'] eqn:Hrun; try discriminate.
    intros [= <-]. cbn [sw]. apply leave_pass in Hrun as (_ & -> & _). reflexivity.
  - destruct (acceptors s !! k) as [[|]|]; try discriminate.
    destruct (serve HIDE_CONNECT conn code (sw s)) as [b w'|f w'|w'] eqn:Hrun;
      try discriminate.
    intros [= <-]. apply (keeps_Done _ _ _ _ _ (view_serve HIDE_CONNECT conn code) Hrun).
  - destruct (acceptors s !! k) as [[|]|]; try discriminate.
    unfold set_thread. intros [= <-]. reflexivity.
Qed.

End TableView.

Lemma map_filter_alter (v : Z) (i : nat) (tbl : list log_listener) :
  map filter (alter (fun l => LogListener v (filter l)) i tbl) = map filter tbl.
Proof.
  revert i. induction tbl as [|l tbl IH]; intros [|i]; simpl; try reflexivity.
  f_equal. apply IH.
Qed.

Lemma set_fd_keeps_filters (i : nat) (v : Z) :
  steps (keeps (fun w => map filter (log_events w))) (set_fd i v).
Proof.
  intros w. unfold set_fd, keeps.
  destruct (log_events w !! i); cbn [world_of log_events];
    [apply map_filter_alter | reflexivity].
Qed.

Lemma disable_all_keeps_filters :
  steps (keeps (fun w => map filter (log_events w))) disable_all.
Proof. pose proof set_fd_keeps_filters. unfold disable_all. steps_tac. Qed.

Lemma step_keeps_filters (HIDE_CONNECT : Z) (s s' : sys) (o : op) :
  step HIDE_CONNECT s o = Some s' ->
  map filter (log_events (sw s')) = map filter (log_events (sw s)).
Proof.
  destruct o as [pid pfd rd| | |line wr|tid|k conn code|k];
    try (apply (view_step (map filter)); [intros; apply map_filter_alter | discriminate]).
  cbn [step]. destruct (in_pass s); [discriminate|].
  destruct (negb (loggable (sw s) =? 0)); [discriminate|].
  destruct (disable_all (sw s)) as [u w'|f w'|w'] eqn:Hrun; try discriminate.
  intros [= <-]. apply (keeps_Done _ _ _ _ _ disable_all_keeps_filters Hrun).
Qed.

Lemma log_daemon_loop_keeps_filters (runs : list run_in) :
  steps (keeps (fun w => map filter (log_events w))) (log_daemon_loop runs).
Proof.
  pose proof disable_all_keeps_filters.
  induction runs as [|r rest IH]; cbn [log_daemon_loop].
  - steps_tac.
  - pose proof (view_read_lines (map filter) (fun v tbl => map_filter_alter v _ tbl)
                  (log_pid r) (eof r) (lines r)).
    pose proof (view_test_logcat (map filter) (probe_pid r) (probe_fd r) (probe_read r)).
    steps_tac.
Qed.

(** X3: the filter of a listener is never changed. In every state the
    two threads reach, by any interleaving of their steps, the table
    holds the three entries and the three filters it was initialised
    with; so does the world [log_daemon] leaves, however it ends. *)
Theorem filters_never_change (HIDE_CONNECT : Z) :
  (forall (os : list op) (s s' : sys),
     run HIDE_CONNECT s os = Some s' ->
     map filter (log_events (sw s')) = map filter (log_events (sw s))) /\
  (forall (os : list op) (s' : sys),
     run HIDE_CONNECT sys_init os = Some s' ->
     standard_filters (sw s') /\ table_ok (sw s')) /\
  (forall debug logfile_fd debug_fd runs,
     standard_filters
       (world_of (log_daemon debug logfile_fd debug_fd runs world_init))).
Proof.
  assert (Hrun : forall (os : list op) (s s' : sys),
     run HIDE_CONNECT s os = Some s' ->
     map filter (log_events (sw s')) = map filter (log_events (sw s))).
  { induction os as [|o os IH]; intros s s'; cbn [run].
    - now intros [= <-].
    - destruct (step HIDE_CONNECT s o) as [s1|] eqn:Hstep; [|discriminate].
      intros Hrest. rewrite (IH _ _ Hrest). now apply step_keeps_filters in Hstep. }
  split; [exact Hrun|]. split.
  - intros os s' Hos. pose proof (Hrun _ _ _ Hos) as Hf. split; [exact Hf|].
    unfold table_ok. rewrite <- (length_map filter), Hf. reflexivity.
  - intros debug logfile_fd debug_fd runs.
    assert (Hd : steps (keeps (fun w => map filter (log_events w)))
                   (log_daemon debug logfile_fd debug_fd runs)).
    { pose proof set_fd_keeps_filters. pose proof (log_daemon_loop_keeps_filters runs).
      unfold log_daemon. steps_tac. }
    exact (Hd world_init).
Qed.

(** X4: the targets of the log file and of the debug log are changed by
    nothing but the teardown of lines 127-130: along every schedule
    without it, whatever the acceptors, the signal handler, the probe and
    the passes do, every listener other than the hide listener keeps its
    target. *)
Theorem file_targets_change_only_at_teardown
    (HIDE_CONNECT : Z) (i : nat) (os : list op) :
  forall (s s' : sys),
    i <> HIDE_EVENT ->
    Forall (fun o => o <> OpDisable) os ->
    run HIDE_CONNECT s os = Some s' ->
    log_events (sw s') !! i = log_events (sw s) !! i.
Proof.
  induction os as [|o os IH]; intros s s' Hi Hos; cbn [run].
  - now intros [= <-].
  - destruct (step HIDE_CONNECT s o) as [s1|] eqn:Hstep; [|discriminate].
    apply Forall_cons in Hos as [Ho Hos]. intros Hrest.
    rewrite (IH _ _ Hi Hos Hrest).
    apply (view_step (fun tbl => tbl !! i)) with (HIDE_CONNECT := HIDE_CONNECT) (o := o);
      try assumption.
    intros v tbl. apply list_lookup_alter_ne. congruence.
Qed.

(** ** The guard *)






(** ** The loop over the lines of one producer *)

Lemma bind_ext {A B} (c : M A) (k1 k2 : A -> M B) (w : world) :
  (forall a w1, k1 a w1 = k2 a w1) -> bind c k1 w = bind c k2 w.
Proof. intros H. unfold bind. destruct (c w); auto. Qed.

(** X6: once [kill(log_pid, 0)] answers that the producer is gone, the
    loop of lines 142-159 is left at once: the lines the producer had
    still written are never read, and the loop ends as it does at the end
    of the stream, whether the stream has an end or not. *)
Theorem dead_producer_ends_loop (pid : Z) (l : line_in) (ls2 : list line_in) :
  first_char (text l) <> "-"%char ->
  alive l <> 0 ->
  forall (ls1 : list line_in) (eof : bool) (w : world),
    read_lines pid eof (ls1 ++ l :: ls2) w = read_lines pid true (ls1 ++ [l]) w.
Proof.
  intros Hc Hdead.
  apply Ascii.eqb_neq in Hc. apply Z.eqb_neq in Hdead.
  induction ls1 as [|a ls1 IH]; intros eof w.
  - cbn [app read_lines]. rewrite Hc, Hdead. reflexivity.
  - cbn [app read_lines].
    destruct (Ascii.eqb (first_char (text a)) "-"); [apply IH|].
    apply bind_ext. intros _ w1. apply bind_ext. intros _ w2.
    destruct (negb (alive a =? 0)); [reflexivity | apply IH].
Qed.

(** ** The children of the outer loop *)

Lemma proc_events_app (t1 t2 : list event) :
  proc_events (t1 ++ t2) = proc_events t1 ++ proc_events t2.
Proof. apply List.filter_app. Qed.

Lemma extends_no_proc (w w' : world) :
  extends (fun e => is_proc_event e = false) w w' ->
  proc_events (trace w') = proc_events (trace w).
Proof.
  intros (tr & -> & Hall). rewrite proc_events_app.
  assert (Hnil : proc_events tr = []).
  { induction Hall as [|e tr He _ IH]; [reflexivity|].
    unfold proc_events in *. cbn [List.filter]. now rewrite He. }
  now rewrite Hnil, app_nil_r.
Qed.

Lemma locked_pass_no_proc (l : line_in) :
  steps (extends (fun e => is_proc_event e = false)) (locked_pass l).
Proof.
  unfold locked_pass, dispatch, dispatch_slot, rearm, write_fd.
  trace_steps.
  destruct (wr l _); trace_steps.
Qed.

Lemma read_lines_no_proc (pid : Z) (eof : bool) (ls : list line_in) :
  steps (extends (fun e => is_proc_event e = false)) (read_lines pid eof ls).
Proof.
  induction ls as [|l rest IH]; cbn [read_lines].
  - destruct eof; trace_steps.
  - destruct (Ascii.eqb (first_char (text l)) "-"); [exact IH|].
    apply extends_bind; [apply locked_pass_no_proc|].
    intros _. apply extends_bind; [apply extends_emit; reflexivity|].
    intros _. apply steps_if; [trace_steps | exact IH].
Qed.

Lemma disable_all_no_proc :
  steps (extends (fun e => is_proc_event e = false)) disable_all.
Proof. unfold disable_all. trace_steps. Qed.

Lemma emit_trace (e : event) (w w' : world) (u : unit) :
  emit e w = Done u w' ->
  trace w' = trace w ++ [e] /\ loggable w' = loggable w.
Proof. unfold emit. intros H. inversion H; subst. now split. Qed.

Lemma steps_Done {A} (R : world -> world -> Prop) (c : M A) (w w' : world) (a : A) :
  steps R c -> c w = Done a w' -> R w w'.
Proof. intros Hc Hrun. specialize (Hc w). now rewrite Hrun in Hc. Qed.

(** X7: when the outer loop of [log_daemon] returns, having started with
    [loggable] set, it has gone through the turns up to the first one
    whose probe did not read its byte, all probes before having read
    theirs; and in each of these turns it has started one producer,
    terminated and reaped it, then started one probe child, terminated
    and reaped it, in this order and nothing else. *)
Theorem restart_cycles (runs : list run_in) :
  forall (w w' : world),
    loggable w <> 0 ->
    log_daemon_loop runs w = Done tt w' ->
    exists (done : list run_in) (r : run_in) (rest : list run_in) (n : Z),
      runs = done ++ r :: rest /\
      Forall (fun r0 => probe_read r0 = RRet 1) done /\
      probe_read r = RRet n /\ n <> 1 /\
      proc_events (trace w') =
        proc_events (trace w) ++ flat_map turn_events (done ++ [r]).
Proof.
  induction runs as [|r rest IH]; intros w w' Hon Hrun;
    rewrite log_daemon_loop_unfold in Hrun;
    destruct (Z.eqb_spec (loggable w) 0) as [H0|_]; try contradiction;
    [discriminate|].
  apply bind_Done_inv in Hrun as (u1 & w1 & Hex & Hrun).
  apply bind_Done_inv in Hrun as (u2 & w2 & Hrd & Hrun).
  apply open_stream_Done in Hrd as [_ Hrd].
  apply bind_Done_inv in Hrun as (u3 & w3 & Hcl & Hrun).
  apply bind_Done_inv in Hrun as (u4 & w4 & Hkl & Hrun).
  apply bind_Done_inv in Hrun as (u5 & w5 & Hwt & Hrun).
  apply bind_Done_inv in Hrun as (u6 & w6 & Hpr & Hrun).
  apply emit_trace in Hex as [Ht1 Hg1].
  apply emit_trace in Hcl as [Ht3 Hg3].
  apply emit_trace in Hkl as [Ht4 Hg4].
  apply emit_trace in Hwt as [Ht5 Hg5].
  pose proof (extends_no_proc _ _ (steps_Done _ _ _ _ _ (read_lines_no_proc _ _ _) Hrd))
    as Hp2.
  pose proof (keeps_Done _ _ _ _ _ (read_lines_keeps_loggable _ _ _) Hrd) as Hg2.
  destruct (probe_read r) as [n|] eqn:Hprobe;
    [|rewrite test_logcat_never in Hpr; discriminate].
  rewrite test_logcat_ret in Hpr. inversion Hpr; subst w6. clear Hpr.
  assert (Hturn : proc_events
            (trace w5 ++ [EExec ["logcat"%string] (probe_pid r) (probe_fd r);
                          ERead (probe_fd r) 1;
                          EKill (probe_pid r) SIGTERM; EWaitpid (probe_pid r)]) =
          proc_events (trace w) ++ turn_events r).
  { rewrite Ht5, Ht4, Ht3, !proc_events_app, Hp2, Ht1, proc_events_app.
    rewrite <- !app_assoc. reflexivity. }
  destruct (Z.eqb_spec n 1) as [->|Hn].
  - assert (Hon5 : loggable w5 <> 0) by congruence.
    apply IH in Hrun; [|exact Hon5].
    destruct Hrun as (done & r' & rest' & n' & -> & Hdone & Hr' & Hn' & Hev).
    exists (r :: done), r', rest', n'.
    split; [reflexivity|]. split; [now constructor|]. split; [assumption|].
    split; [assumption|].
    rewrite Hev. cbn [trace]. rewrite Hturn.
    cbn [app flat_map]. now rewrite <- !app_assoc.
  - exists [], r, rest, n.
    split; [reflexivity|]. split; [constructor|]. split; [exact Hprobe|].
    split; [assumption|].
    rewrite log_daemon_loop_unfold in Hrun. cbn [loggable Z.eqb] in Hrun.
    rewrite (extends_no_proc _ _ (steps_Done _ _ _ _ _ disable_all_no_proc Hrun)).
    cbn [trace]. rewrite Hturn. cbn [app flat_map]. now rewrite app_nil_r.
Qed.

(** ** Where the loop can go wrong *)




Lemma hide_alter_other (i : nat) :
  i <> HIDE_EVENT ->
  forall (v : Z) (tbl : list log_listener),
    alter (fun l => LogListener v (filter l)) HIDE_EVENT tbl !! i = tbl !! i.
Proof. intros Hi v tbl. apply list_lookup_alter_ne. congruence. Qed.







(** ** Listeners without target *)

Lemma stays_silent_refl (i : nat) (w : world) : stays_silent i w w.
Proof.
  intros Hno. split; [assumption|]. exists []. now rewrite app_nil_r.
Qed.

Lemma stays_silent_trans (i : nat) (w1 w2 w3 : world) :
  stays_silent i w1 w2 -> stays_silent i w2 w3 -> stays_silent i w1 w3.
Proof.
  intros H12 H23 Hno.
  destruct (H12 Hno) as (Hno2 & t1 & Ht1 & Hs1).
  destruct (H23 Hno2) as (Hno3 & t2 & Ht2 & Hs2).
  split; [assumption|]. exists (t1 ++ t2). split.
  - now rewrite Ht2, Ht1, app_assoc.
  - now rewrite slot_writes_app, Hs1, Hs2.
Qed.

Lemma silent_emit (i : nat) (e : event) :
  slot_writes i [e] = [] -> steps (stays_silent i) (emit e).
Proof.
  intros He w Hno. split; [exact Hno|]. exists [e]. now split.
Qed.

Lemma silent_same (i : nat) (w w' : world) :
  log_events w' = log_events w -> trace w' = trace w -> stays_silent i w w'.
Proof.
  intros Htbl Htr Hno. split.
  - unfold no_target. now rewrite Htbl.
  - exists []. now rewrite app_nil_r.
Qed.

Lemma silent_set_fd (i j : nat) (v : Z) :
  j <> i \/ v <= 0 -> steps (stays_silent i) (set_fd j v).
Proof.
  intros Hjv w Hno. unfold set_fd.
  destruct (log_events w !! j) as [lj|] eqn:Hj; cbn [world_of].
  - split.
    + intros l. cbn [log_events]. rewrite list_lookup_alter.
      destruct (decide (j = i)) as [->|Hne].
      * rewrite Hj. cbn. intros [= <-]. cbn [fd]. destruct Hjv; [contradiction | assumption].
      * apply Hno.
    + exists []. cbn [trace]. now rewrite app_nil_r.
  - now apply stays_silent_refl.
Qed.

Lemma silent_lock (i : nat) : steps (stays_silent i) pthread_mutex_lock.
Proof.
  intros w. unfold pthread_mutex_lock. destruct (lock w); cbn [world_of].
  - apply stays_silent_refl.
  - intros Hno. split; [exact Hno|]. exists [ELock]. now split.
Qed.

Lemma silent_unlock (i : nat) : steps (stays_silent i) pthread_mutex_unlock.
Proof. intros w Hno. split; [exact Hno|]. exists [EUnlock]. now split. Qed.

Lemma silent_set_thread (i : nat) (v : Z) : steps (stays_silent i) (set_thread v).
Proof. intros w. now apply silent_same. Qed.

Lemma silent_set_loggable (i : nat) (v : Z) : steps (stays_silent i) (set_loggable v).
Proof. intros w. now apply silent_same. Qed.

(** Builds [steps (stays_silent i) c] along the structure of [c]. *)
Ltac silent_steps :=
  repeat first
    [ match goal with H : _ |- _ => solve [apply H] end
    | apply steps_for_each;
        [apply stays_silent_refl | apply stays_silent_trans | intros ?]
    | apply steps_bind; [apply stays_silent_trans | | intros ?]
    | apply steps_if
    | apply steps_ret; apply stays_silent_refl
    | apply steps_stuck; apply stays_silent_refl
    | apply steps_fail; apply stays_silent_refl
    | apply steps_get_loggable; apply stays_silent_refl
    | apply steps_get_thread; apply stays_silent_refl
    | apply steps_get_fd; apply stays_silent_refl
    | apply steps_call_filter; apply stays_silent_refl
    | apply silent_emit; reflexivity
    | apply silent_set_fd; right; lia
    | apply silent_lock
    | apply silent_unlock
    | apply silent_set_thread
    | apply silent_set_loggable ].

Lemma silent_sigpipe_handler (i : nat) : steps (stays_silent i) sigpipe_handler.
Proof. unfold sigpipe_handler. silent_steps. Qed.

Lemma silent_write_fd (i j : nat) (f : Z) (line : string) (len : Z) (r : wres) :
  j <> i -> steps (stays_silent i) (write_fd j f line len r).
Proof.
  intros Hne. unfold write_fd.
  apply steps_bind; [apply stays_silent_trans | | intros _].
  - apply silent_emit. rewrite slot_writes_write.
    destruct (decide (j = i)); [contradiction | reflexivity].
  - destruct r; [silent_steps | apply silent_sigpipe_handler | silent_steps | silent_steps].
Qed.

Lemma silent_dispatch_slot (i : nat) (line : string) (len : Z) (wr : nat -> wres) (j : nat) :
  steps (stays_silent i) (dispatch_slot line len wr j).
Proof.
  intros w Hno. revert Hno. change (stays_silent i w (world_of (dispatch_slot line len wr j w))).
  unfold dispatch_slot, bind at 1, get_fd.
  destruct (log_events w !! j) as [lj|] eqn:Hj; [|apply stays_silent_refl].
  destruct (Z.ltb_spec 0 (fd lj)) as [Hpos|_]; [|apply stays_silent_refl].
  destruct (decide (j = i)) as [->|Hne].
  - intros Hno. specialize (Hno lj Hj). lia.
  - assert (Hrest : steps (stays_silent i)
              (b <- call_filter j line ;;
               if b then write_fd j (fd lj) line len (wr j) else ret tt)).
    { pose proof (silent_write_fd i j (fd lj) line len (wr j) Hne). silent_steps. }
    apply Hrest.
Qed.

Lemma silent_locked_pass (i : nat) (l : line_in) : steps (stays_silent i) (locked_pass l).
Proof.
  pose proof (silent_dispatch_slot i (text l) (strlen (text l)) (wr l)).
  unfold locked_pass, dispatch, rearm. silent_steps.
Qed.

Lemma silent_read_lines (i : nat) (pid : Z) (eof : bool) (ls : list line_in) :
  steps (stays_silent i) (read_lines pid eof ls).
Proof.
  induction ls as [|l rest IH]; cbn [read_lines].
  - destruct eof; silent_steps.
  - pose proof (silent_locked_pass i l). silent_steps.
Qed.

Lemma silent_log_daemon_loop (i : nat) (runs : list run_in) :
  steps (stays_silent i) (log_daemon_loop runs).
Proof.
  induction runs as [|r rest IH]; cbn [log_daemon_loop].
  - unfold disable_all. silent_steps.
  - pose proof (silent_read_lines i (log_pid r) (eof r) (lines r)).
    unfold disable_all, test_logcat. silent_steps.
    destruct (probe_read r); silent_steps.
Qed.

Lemma silent_test_logcat (i : nat) (pid pfd : Z) (rd : rres) :
  steps (stays_silent i) (test_logcat pid pfd rd).
Proof. unfold test_logcat. silent_steps. destruct rd; silent_steps. Qed.

Lemma silent_disable_all (i : nat) : steps (stays_silent i) disable_all.
Proof. unfold disable_all. silent_steps. Qed.

Lemma silent_serve (i : nat) (HIDE_CONNECT conn code : Z) :
  i <> HIDE_EVENT -> steps (stays_silent i) (serve HIDE_CONNECT conn code).
Proof.
  intros Hi.
  assert (Hset : steps (stays_silent i) (set_fd HIDE_EVENT conn))
    by (apply silent_set_fd; left; congruence).
  unfold serve. silent_steps.
Qed.

(** Every step of the two threads. *)
Lemma silent_step (i : nat) (HIDE_CONNECT : Z) (s s' : sys) (o : op) :
  i <> HIDE_EVENT ->
  step HIDE_CONNECT s o = Some s' ->
  stays_silent i (sw s) (sw s').
Proof.
  intros Hi.
  destruct o as [pid pfd rd| | |line wr|tid|k conn code|k]; cbn [step].
  - destruct (in_pass s); [discriminate|].
    destruct (test_logcat pid pfd rd (sw s)) as [u w'|f w'|w'] eqn:Hrun; try discriminate.
    intros [= <-]. apply (steps_Done _ _ _ _ _ (silent_test_logcat i pid pfd rd) Hrun).
  - destruct (sigpipe_handler (sw s)) as [u w'|f w'|w'] eqn:Hrun; try discriminate.
    intros [= <-]. apply (steps_Done _ _ _ _ _ (silent_sigpipe_handler i) Hrun).
  - destruct (in_pass s); [discriminate|].
    destruct (negb (loggable (sw s) =? 0)); [discriminate|].
    destruct (disable_all (sw s)) as [u w'|f w'|w'] eqn:Hrun; try discriminate.
    intros [= <-]. apply (steps_Done _ _ _ _ _ (silent_disable_all i) Hrun).
  - destruct (in_pass s); [discriminate|].
    destruct (Ascii.eqb (first_char line) "-"); [discriminate|].
    destruct ((pthread_mutex_lock ;; dispatch line (strlen line) wr) (sw s))
      as [u w'|f w'|w'] eqn:Hrun; try discriminate.
    intros [= <-]. cbn [sw].
    refine (steps_Done (stays_silent i) _ _ _ _ _ Hrun).
    pose proof (silent_dispatch_slot i line (strlen line) wr).
    unfold dispatch. silent_steps.
  - destruct (negb (in_pass s)); [discriminate|].
    destruct ((b <- rearm tid ;; pthread_mutex_unlock ;; ret b) (sw s))
      as [b w'|f w'|w'] eqn:Hrun; try discriminate.
    intros [= <-]. cbn [sw].
    refine (steps_Done (stays_silent i) _ _ _ _ _ Hrun).
    unfold rearm. silent_steps.
  - destruct (acceptors s !! k) as [[|]|]; try discriminate.
    destruct (serve HIDE_CONNECT conn code (sw s)) as [b w'|f w'|w'] eqn:Hrun;
      try discriminate.
    intros [= <-].
    apply (steps_Done _ _ _ _ _ (silent_serve i HIDE_CONNECT conn code Hi) Hrun).
  - destruct (acceptors s !! k) as [[|]|]; try discriminate.
    unfold set_thread. intros [= <-]. now apply silent_same.
Qed.

Lemma silent_run (i : nat) (HIDE_CONNECT : Z) (os : list op) :
  i <> HIDE_EVENT ->
  forall (s s' : sys),
    run HIDE_CONNECT s os = Some s' -> stays_silent i (sw s) (sw s').
Proof.
  intros Hi. induction os as [|o os IH]; intros s s'; cbn [run].
  - intros [= <-]. apply stays_silent_refl.
  - destruct (step HIDE_CONNECT s o) as [s1|] eqn:Hstep; [|discriminate].
    intros Hrest.
    apply (stays_silent_trans i (sw s) (sw s1) (sw s'));
      [eapply silent_step; eauto | now apply IH].
Qed.

(** X9: the log file or the debug log, when it has no target
    ([fd <= 0]), is handed no write and gets no target, whatever the
    dispatch loop, the probe, the teardown, the signal handler and the
    acceptors do and however their steps interleave: nothing after line
    118 gives one of the two file listeners a target. The same holds of
    the whole run of the outer loop of [log_daemon], however it ends. *)
Theorem absent_listener_stays_silent (HIDE_CONNECT : Z) (i : nat) :
  i <> HIDE_EVENT ->
  (forall (os : list op) (s s' : sys),
     no_target i (sw s) ->
     run HIDE_CONNECT s os = Some s' ->
     no_target i (sw s') /\
     exists tr, trace (sw s') = trace (sw s) ++ tr /\ slot_writes i tr = []) /\
  (forall (runs : list run_in) (w : world),
     no_target i w ->
     no_target i (world_of (log_daemon_loop runs w)) /\
     exists tr,
       trace (world_of (log_daemon_loop runs w)) = trace w ++ tr /\
       slot_writes i tr = []).
Proof.
  intros Hi. split.
  - intros os s s' Hno Hrun. exact (silent_run i HIDE_CONNECT os Hi s s' Hrun Hno).
  - intros runs w. apply silent_log_daemon_loop.
Qed.

(** X10: built without [MAGISK_DEBUG], [log_daemon] never writes to the
    debug listener: whatever the producers print and however the run
    ends, the trace of the daemon holds no write issued for it. *)
Theorem release_build_never_writes_debug_log
    (logfile_fd debug_fd : Z) (runs : list run_in) :
  slot_writes DEBUG_EVENT
    (trace (world_of (log_daemon false logfile_fd debug_fd runs world_init))) = [].
Proof.
  assert (Hd : steps (stays_silent DEBUG_EVENT)
                 (log_daemon false logfile_fd debug_fd runs)).
  { pose proof (silent_log_daemon_loop DEBUG_EVENT runs).
    unfold log_daemon. silent_steps.
    apply silent_set_fd. left. discriminate. }
  destruct (Hd world_init) as (_ & tr & Htr & Hs).
  - intros l Hl. cbn in Hl. injection Hl as <-. cbn. lia.
  - rewrite Htr. exact Hs.
Qed.

(** ** The hide listener across a pass *)

Lemma locked_pass_Done (l : line_in) (w w' : world) (b : bool) :
  table_ok w ->
  locked_pass l w = Done b w' ->
  exists w1 h1,
    pass_post (text l) (strlen (text l)) (wr l) 0 (guarded w) w1 /\
    log_events w1 !! HIDE_EVENT = Some h1 /\
    b = (thread w <? 0) && (fd h1 <? 0) /\
    w' = rearmed b (tid l) w1.
Proof.
  intros Hok Hrun. destruct (lock w) eqn:Hfree.
  { rewrite locked_pass_needs_guard in Hrun by assumption. discriminate. }
  pose proof (locked_pass_spec l w Hok Hfree) as Hs. now rewrite Hrun in Hs.
Qed.

(** X11: when the write to the subscriber raises [SIGPIPE], the handler
    clears the hide listener before the test of line 151 is reached; so
    the same pass creates the new acceptor if no acceptor exists
    ([thread < 0]), and creates none if one still does. *)
Theorem broken_pipe_rearms_in_same_pass
    (l : line_in) (w w' : world) (b : bool) (h : log_listener) :
  table_ok w ->
  locked_pass l w = Done b w' ->
  log_events w !! HIDE_EVENT = Some h ->
  0 < fd h ->
  filter h (text l) = Ok true ->
  wr l HIDE_EVENT = WPipe ->
  log_events w' !! HIDE_EVENT = Some (LogListener (-1) (filter h)) /\
  (thread w < 0 -> b = true /\ thread w' = tid l) /\
  (0 <= thread w -> b = false /\ thread w' = thread w).
Proof.
  intros Hok Hrun Hh Hpos Hf Hp.
  destruct (locked_pass_Done l w w' b Hok Hrun) as (w1 & h1 & Hpost & Hh1 & Hb & ->).
  assert (Hfires : fires (log_events (guarded w)) (text l) HIDE_EVENT = true).
  { unfold fires. cbn [guarded log_events]. rewrite Hh, Hf.
    apply Z.ltb_lt in Hpos. now rewrite Hpos. }
  pose proof (pp_cleared _ _ _ _ _ _ Hpost HIDE_EVENT ltac:(lia) Hfires Hp) as Htbl.
  cbn [guarded log_events] in Htbl.
  rewrite Htbl, (clear_hide_hide _ h Hh) in Hh1. injection Hh1 as <-.
  cbn [fd] in Hb. replace (-1 <? 0) with true in Hb by reflexivity.
  rewrite andb_true_r in Hb.
  pose proof (pp_thread _ _ _ _ _ _ Hpost) as Ht. cbn [guarded thread] in Ht.
  unfold rearmed. cbn [log_events thread].
  split; [rewrite Htbl; now apply clear_hide_hide|].
  split; intros Hthr.
  - apply Z.ltb_lt in Hthr. rewrite Hthr in Hb. subst b. now split.
  - apply Z.ltb_ge in Hthr. rewrite Hthr in Hb. subst b. now split.
Qed.

(** X12: descriptor 0 as the target of the hide listener falls between
    the two tests of the pass: line 148 ([fd > 0]) does not write to it
    and line 151 ([fd < 0]) does not take it for absent. As long as no
    write raises [SIGPIPE], a pass hands it nothing, creates no acceptor
    and leaves the table as it was. *)
Theorem descriptor_zero_neither_served_nor_replaced
    (l : line_in) (w w' : world) (b : bool) (h : log_listener) :
  table_ok w ->
  locked_pass l w = Done b w' ->
  log_events w !! HIDE_EVENT = Some h ->
  fd h = 0 ->
  (forall i, wr l i <> WPipe) ->
  b = false /\
  thread w' = thread w /\
  log_events w' = log_events w /\
  exists tr, trace w' = trace w ++ tr /\ slot_writes HIDE_EVENT tr = [].
Proof.
  intros Hok Hrun Hh Hzero Hnp.
  destruct (locked_pass_trace l w w' b Hok Hrun) as (tr1 & Htr & Hw & _).
  destruct (locked_pass_Done l w w' b Hok Hrun) as (w1 & h1 & Hpost & Hh1 & Hb & ->).
  pose proof (pp_kept _ _ _ _ _ _ Hpost (fun i _ _ => Hnp i)) as Htbl.
  cbn [guarded log_events] in Htbl.
  rewrite Htbl, Hh in Hh1. injection Hh1 as <-.
  rewrite Hzero in Hb. cbn in Hb. rewrite andb_false_r in Hb. subst b.
  pose proof (pp_thread _ _ _ _ _ _ Hpost) as Ht. cbn [guarded thread] in Ht.
  unfold rearmed. cbn [log_events thread].
  split; [reflexivity|]. split; [assumption|]. split; [assumption|].
  eexists. split; [exact Htr|].
  transitivity (slot_writes HIDE_EVENT tr1);
    [exact (slot_writes_pass HIDE_EVENT tr1 false (tid l))|].
  rewrite Hw. unfold expected_writes. rewrite Hh, Hzero. reflexivity.
Qed.

(** X13: a connection an acceptor has registered is served by the next
    pass: after [socket_thread] has stored the descriptor [conn > 0] and
    returned, with [thread] reset to -1, a pass writes a line to [conn],
    once and in full, exactly when the filter of the hide listener
    answers true on it. *)
Theorem registration_then_dispatch
    (HIDE_CONNECT conn : Z) (rest : list (Z * Z)) (w : world) (h : log_listener) :
  table_ok w ->
  log_events w !! HIDE_EVENT = Some h ->
  lock w = false ->
  0 < conn ->
  exists w1,
    socket_thread HIDE_CONNECT ((conn, HIDE_CONNECT) :: rest) w = Done tt w1 /\
    thread w1 = -1 /\
    forall (l : line_in) (b : bool) (w2 : world),
      locked_pass l w1 = Done b w2 ->
      exists tr,
        trace w2 = trace w1 ++ tr /\
        (slot_writes HIDE_EVENT tr = [(conn, text l, strlen (text l))] <->
         filter h (text l) = Ok true) /\
        (filter h (text l) <> Ok true -> slot_writes HIDE_EVENT tr = []).
Proof.
  intros Hok Hh Hfree Hpos.
  eexists. split; [|split].
  - cbn [socket_thread]. unfold bind at 1.
    rewrite (serve_install _ _ _ h Hh Hfree). reflexivity.
  - reflexivity.
  - intros l b w2 Hrun.
    match type of Hrun with locked_pass l ?w1 = _ =>
      assert (Hok1 : table_ok w1)
        by (unfold table_ok, install_hide in *; cbn [log_events];
            now rewrite length_alter) end.
    destruct (locked_pass_trace l _ w2 b Hok1 Hrun) as (tr1 & Htr & Hw & _).
    eexists. split; [exact Htr|].
    rewrite slot_writes_pass, Hw. unfold expected_writes.
    cbn [log_events]. unfold install_hide. rewrite list_lookup_alter_eq, Hh.
    cbn [fmap option_fmap option_map fd filter].
    apply Z.ltb_lt in Hpos. rewrite Hpos. cbn [andb].
    destruct (filter h (text l)) as [[|]|f]; cbn [ok_true];
      (split; [split; intros H; (reflexivity || discriminate H)
              | intros H; (reflexivity || congruence)]).
Qed.

(** ** The entry point of the main daemon *)

(** X14: [monitor_logs] first probes, and the probe child is terminated
    and reaped before anything else. It then connects to the log daemon
    and sends the one code [DO_NOTHING], closing the connection after,
    exactly when [loggable] is set after the probe: the probe read its
    byte and the flag was not cleared before. When the read of the probe
    never returns, neither does [monitor_logs], and nothing is sent. *)
Theorem monitor_logs_pings_iff_loggable
    (DO_NOTHING pid pfd conn : Z) (w : world) :
  (forall n : Z,
     let ping := (n =? 1) && negb (loggable w =? 0) in
     monitor_logs DO_NOTHING pid pfd (RRet n) conn w =
       Done (if ping then [Connect conn; WriteInt conn DO_NOTHING] else [])
         (World (if n =? 1 then loggable w else 0) (thread w) (log_events w) (lock w)
            (trace w ++ [EExec ["logcat"%string] pid pfd; ERead pfd 1;
                         EKill pid SIGTERM; EWaitpid pid]
                     ++ (if ping then [EClose conn] else [])))) /\
  (exists w',
     monitor_logs DO_NOTHING pid pfd RNever conn w = Stuck w' /\
     trace w' = trace w ++ [EExec ["logcat"%string] pid pfd; ERead pfd 1]).
Proof.
  split.
  - intros n ping. unfold monitor_logs. unfold bind at 1. rewrite test_logcat_ret.
    unfold bind, get_loggable, emit, ret. cbn [loggable thread log_events lock trace].
    subst ping. destruct (n =? 1); cbn [andb].
    + destruct (loggable w =? 0);
        cbn [negb loggable thread log_events lock trace app];
        rewrite <- ?app_assoc; reflexivity.
    + cbn [Z.eqb negb loggable thread log_events lock trace app]. reflexivity.
  - eexists. split.
    + unfold monitor_logs. unfold bind at 1. rewrite test_logcat_never. reflexivity.
    + reflexivity.
Qed.

(** ** What a file listener is handed over a whole stream *)

Lemma read_lines_writes (i : nat) (pid : Z) (eof : bool) (ls : list line_in) :
  forall (w w' : world) (u : unit),
    table_ok w ->
    i <> HIDE_EVENT ->
    read_lines pid eof ls w = Done u w' ->
    exists tr,
      trace w' = trace w ++ tr /\
      slot_writes i tr =
        flat_map (fun l => expected_writes (log_events w) (text l) (strlen (text l)) i)
                 (dispatched ls).
Proof.
  induction ls as [|l rest IH]; intros w w' u Hok Hi; cbn [read_lines dispatched].
  - destruct eof; [|discriminate]. intros H. inversion H; subst.
    exists []. now rewrite app_nil_r.
  - destruct (Ascii.eqb (first_char (text l)) "-"); [now apply IH|].
    intros Hrun.
    apply bind_Done_inv in Hrun as (b & w1 & Hp & Hrun).
    apply bind_Done_inv in Hrun as (u2 & w2 & He & Hrun).
    destruct (locked_pass_trace l w w1 b Hok Hp) as (tr1 & Htr1 & Hw1 & _).
    apply emit_trace in He as He'. destruct He' as [Htr2 _].
    assert (Hsw : slot_writes i
              (ELock :: tr1 ++ (if b then [ESpawn (tid l)] else []) ++ [EUnlock]) ++
            slot_writes i [EKill pid 0] =
            expected_writes (log_events w) (text l) (strlen (text l)) i).
    { rewrite slot_writes_pass, Hw1. cbn. now rewrite app_nil_r. }
    destruct (negb (alive l =? 0)).
    + inversion Hrun; subst.
      eexists. split.
      * rewrite Htr2, Htr1, <- app_assoc. reflexivity.
      * rewrite slot_writes_app, Hsw. cbn [flat_map]. now rewrite app_nil_r.
    + assert (Hok2 : table_ok w2).
      { unfold table_ok. rewrite (emit_Done _ _ _ _ He).
        apply (keeps_length_ok _ _ _ _ (locked_pass_keeps_length l) Hok Hp). }
      assert (Hl2 : log_events w2 !! i = log_events w !! i).
      { rewrite (emit_Done _ _ _ _ He).
        apply (keeps_Done (fun w => log_events w !! i) _ _ _ _
                 (view_locked_pass (fun tbl => tbl !! i) (hide_alter_other i Hi) l) Hp). }
      destruct (IH w2 w' u Hok2 Hi Hrun) as (tr & Htr & Hsl).
      eexists. split.
      * rewrite Htr, Htr2, Htr1, <- !app_assoc. reflexivity.
      * rewrite !slot_writes_app in *. rewrite app_assoc, Hsw, Hsl.
        cbn [flat_map]. f_equal.
        apply flat_map_ext. intros a. now apply expected_lookup.
Qed.

(** X15: over the whole stream of one producer the log file (and the
    debug log) is handed, in the order of the stream and once each,
    exactly the lines its filter answers true on, among the lines that
    reach the pass: those that do not start with '-', up to the first
    line after which the producer is found gone. The writes to the other
    listeners and the clearing of the subscriber do not change this. *)
Theorem file_listener_gets_the_filtered_stream
    (i : nat) (pid : Z) (eof : bool) (ls : list line_in) (w w' : world) :
  table_ok w ->
  i <> HIDE_EVENT ->
  read_lines pid eof ls w = Done tt w' ->
  exists tr,
    trace w' = trace w ++ tr /\
    slot_writes i tr =
      flat_map (fun l => expected_writes (log_events w) (text l) (strlen (text l)) i)
               (dispatched ls).
Proof. apply read_lines_writes. Qed.

(** * The statements at work on concrete lines and worlds *)


Lemma loggable_is_one_way_witness :
  log_daemon_loop [] (World 0 (-1) (log_events subscribed_world) false []) =
    Done tt (World 0 (-1) log_events_init false [EClose 7; EClose 8; EClose 9]).
Proof.
  destruct loggable_is_one_way as (_ & _ & _ & _ & _ & _ & _ & _ & _ & _ & Hoff & _).
  rewrite (Hoff [] (World 0 (-1) (log_events subscribed_world) false []));
    reflexivity.
Defined.

Lemma broken_pipe_clears_hide_witness :
  table_ok subscribed_world /\
  lock subscribed_world = false /\
  (forall i, wr (line_with start_line WPipe) i <> WBlock) /\
  exists b w',
    locked_pass (line_with start_line WPipe) subscribed_world = Done b w' /\
    log_events w' !! HIDE_EVENT = Some (LogListener (-1) am_proc_start_filter) /\
    log_events w' !! LOG_EVENT = Some (LogListener 8 magisk_log_filter) /\
    (exists tr, trace w' =
       ELock :: EWrite HIDE_EVENT 7 start_line (strlen start_line) :: EClose 7 :: tr) /\
    exists wz tr,
      read_lines 100 true
        [line_with start_line WPipe; line_with info_line WFail] subscribed_world =
        Done tt wz /\
      trace wz = tr /\
      slot_writes LOG_EVENT tr = [(8, info_line, strlen info_line)].
Proof.
  assert (Hok : table_ok subscribed_world) by reflexivity.
  assert (Hfree : lock subscribed_world = false) by reflexivity.
  assert (Hret : forall i, wr (line_with start_line WPipe) i <> WBlock) by discriminate.
  split; [exact Hok|]. split; [exact Hfree|]. split; [exact Hret|].
  destruct (broken_pipe_clears_hide (line_with start_line WPipe) subscribed_world
              Hok Hfree Hret)
    as (b & w' & Hrun & _ & Hother & _ & Hhide & _ & _ & Hstream).
  - intros [|[|[|i]]] ll Hll _; try discriminate;
      injection Hll as <-; eexists; vm_compute; reflexivity.
  - exists b, w'. split; [exact Hrun|].
    destruct (Hhide (LogListener 7 am_proc_start_filter)) as [Hcleared Hclosed].
    + reflexivity.
    + simpl. lia.
    + vm_compute. reflexivity.
    + reflexivity.
    + split; [exact Hcleared|]. split; [rewrite Hother by discriminate; reflexivity|].
      split; [exact Hclosed|].
      destruct (Hstream 100 true [line_with info_line WFail])
        as (wz & Hout & _ & tr & Htr & Hw).
      * constructor; [|constructor]. split; [discriminate|].
        intros [|[|[|i]]] ll Hll _; try discriminate;
          injection Hll as <-; eexists; vm_compute; reflexivity.
      * exists wz, tr. destruct Hout as [Hout|[Hno _]]; [|discriminate].
        split; [exact Hout|]. split; [exact Htr|].
        rewrite (Hw LOG_EVENT) by discriminate. vm_compute. reflexivity.
Defined.

Lemma test_logcat_probe_witness :
  exists w',
    test_logcat 100 3 (RRet 0) world_init = Done tt w' /\
    loggable w' = 0.
Proof.
  destruct (test_logcat_probe 100 3 world_init) as [Hret _].
  destruct (Hret 0) as (w' & Hrun & _ & Hfail & _).
  exists w'. split; [exact Hrun|]. apply Hfail. lia.
Defined.


Lemma magisk_log_filter_true_iff_witness :
  magisk_log_filter info_line = Ok true /\
  ~ (exists (i : nat) (c : ascii),
       first_occurrence " Magisk" debug_line i /\ (0 < i)%nat /\
       String.get (i - 1) debug_line = Some c /\ c <> "D"%char /\ c <> "V"%char).
Proof.
  split.
  - apply magisk_log_filter_true_iff. exists 32%nat, "I"%char.
    split; [apply strstr_first; vm_compute; reflexivity|].
    split; [lia|]. split; [reflexivity|]. split; discriminate.
  - intros H. apply magisk_log_filter_true_iff in H. vm_compute in H. discriminate.
Defined.

Lemma debug_filter_complements_hide_witness :
  magisk_debug_log_filter start_line = Ok false /\
  magisk_debug_log_filter info_line = Ok true.
Proof.
  split.
  - apply (proj1 (proj2 (debug_filter_complements_hide start_line))).
    vm_compute. reflexivity.
  - apply (proj1 (debug_filter_complements_hide info_line)).
    vm_compute. reflexivity.
Defined.

Lemma continuation_lines_not_dispatched_witness :
  read_lines 100 true [line_with marker_line (WDone 27); line_with info_line (WDone 71)]
    subscribed_world =
  read_lines 100 true [line_with info_line (WDone 71)] subscribed_world.
Proof.
  apply (proj2 (continuation_lines_not_dispatched 100 true
                  [line_with marker_line (WDone 27); line_with info_line (WDone 71)]
                  subscribed_world)
               (line_with marker_line (WDone 27)) [line_with info_line (WDone 71)]).
  - reflexivity.
  - reflexivity.
Defined.

Lemma magisk_log_filter_reads_before_tag_witness :
  first_occurrence " Magisk" bare_line 0 /\
  magisk_log_filter bare_line = Err (OutOfBounds (-1)).
Proof.
  assert (Hfo : first_occurrence " Magisk" bare_line 0)
    by (apply strstr_first; vm_compute; reflexivity).
  split; [exact Hfo|].
  destruct (magisk_log_filter_reads_before_tag bare_line 0 Hfo) as (_ & _ & Hzero & _).
  exact (proj2 (Hzero eq_refl)).
Defined.

(** * The further statements at work *)

Lemma magisk_log_filter_fault_iff_witness :
  magisk_log_filter bare_line = Err (OutOfBounds (-1)) /\
  ~ begins_with_tag info_line.
Proof.
  split.
  - apply magisk_log_filter_fault_iff. split; [reflexivity|].
    now exists "  : line with no priority before the tag"%string.
  - intros Hb.
    assert (Hf : magisk_log_filter info_line = Err (OutOfBounds (-1)))
      by (apply magisk_log_filter_fault_iff; now split).
    vm_compute in Hf. discriminate.
Defined.

Lemma magisk_log_filter_false_iff_witness :
  magisk_log_filter debug_line = Ok false /\
  magisk_log_filter start_line = Ok false.
Proof.
  split.
  - apply magisk_log_filter_false_iff. right. exists 32%nat, "D"%char.
    split; [apply strstr_first; vm_compute; reflexivity|].
    split; [lia|]. split; [reflexivity | now left].
  - apply magisk_log_filter_false_iff. left.
    apply strstr_None. vm_compute. reflexivity.
Defined.

Lemma filters_never_change_witness :
  exists s,
    run 12 sys_init sample_schedule = Some s /\
    standard_filters (sw s) /\ table_ok (sw s).
Proof.
  destruct (run 12 sys_init sample_schedule) as [s|] eqn:Hrun.
  - exists s. split; [reflexivity|].
    exact (proj1 (proj2 (filters_never_change 12)) sample_schedule s Hrun).
  - vm_compute in Hrun. discriminate.
Defined.

Lemma file_targets_change_only_at_teardown_witness :
  LOG_EVENT <> HIDE_EVENT /\
  Forall (fun o => o <> OpDisable) sample_schedule /\
  exists s,
    run 12 sys_init sample_schedule = Some s /\
    log_events (sw s) !! LOG_EVENT = Some (LogListener (-1) magisk_log_filter).
Proof.
  assert (Hi : LOG_EVENT <> HIDE_EVENT) by discriminate.
  assert (Hos : Forall (fun o => o <> OpDisable) sample_schedule)
    by (repeat constructor; discriminate).
  split; [exact Hi|]. split; [exact Hos|].
  destruct (run 12 sys_init sample_schedule) as [s|] eqn:Hrun.
  - exists s. split; [reflexivity|].
    rewrite (file_targets_change_only_at_teardown 12 LOG_EVENT sample_schedule
               sys_init s Hi Hos Hrun).
    reflexivity.
  - vm_compute in Hrun. discriminate.
Defined.


Lemma dead_producer_ends_loop_witness :
  first_char (text last_line) <> "-"%char /\
  alive last_line <> 0 /\
  read_lines 100 false
    ([line_with start_line (WDone 1)] ++ last_line :: [line_with debug_line (WDone 1)])
    subscribed_world =
  read_lines 100 true ([line_with start_line (WDone 1)] ++ [last_line]) subscribed_world.
Proof.
  assert (Hc : first_char (text last_line) <> "-"%char) by discriminate.
  assert (Hd : alive last_line <> 0) by discriminate.
  split; [exact Hc|]. split; [exact Hd|].
  exact (dead_producer_ends_loop 100 last_line [line_with debug_line (WDone 1)] Hc Hd
           [line_with start_line (WDone 1)] false subscribed_world).
Defined.

Lemma restart_cycles_witness :
  loggable subscribed_world <> 0 /\
  exists w',
    log_daemon_loop [one_turn info_line 1; one_turn start_line 0; one_turn debug_line 1]
      subscribed_world = Done tt w' /\
    exists done r rest n,
      [one_turn info_line 1; one_turn start_line 0; one_turn debug_line 1] =
        done ++ r :: rest /\
      probe_read r = RRet n /\ n <> 1 /\
      proc_events (trace w') =
        proc_events (trace subscribed_world) ++ flat_map turn_events (done ++ [r]).
Proof.
  assert (Hon : loggable subscribed_world <> 0) by discriminate.
  split; [exact Hon|].
  eexists. split; [vm_compute; reflexivity|].
  destruct (restart_cycles
              [one_turn info_line 1; one_turn start_line 0; one_turn debug_line 1]
              subscribed_world _ Hon ltac:(vm_compute; reflexivity))
    as (done & r & rest & n & Hruns & _ & Hr & Hn & Hev).
  exists done, r, rest, n. auto.
Defined.


Lemma absent_listener_stays_silent_witness :
  DEBUG_EVENT <> HIDE_EVENT /\
  no_target DEBUG_EVENT (sw (sys_started false 8 0)) /\
  exists s,
    run 12 (sys_started false 8 0) sample_schedule = Some s /\
    no_target DEBUG_EVENT (sw s) /\
    slot_writes DEBUG_EVENT (trace (sw s)) = [].
Proof.
  assert (Hi : DEBUG_EVENT <> HIDE_EVENT) by discriminate.
  assert (Hno : no_target DEBUG_EVENT (sw (sys_started false 8 0))).
  { intros l Hl. injection Hl as <-. simpl. lia. }
  split; [exact Hi|]. split; [exact Hno|].
  destruct (run 12 (sys_started false 8 0) sample_schedule) as [s|] eqn:Hrun;
    [|vm_compute in Hrun; discriminate].
  exists s. split; [reflexivity|].
  destruct (proj1 (absent_listener_stays_silent 12 DEBUG_EVENT Hi)
              sample_schedule _ s Hno Hrun) as (Hno' & tr & Htr & Hs).
  split; [exact Hno'|]. rewrite Htr. exact Hs.
Defined.

Lemma one_acceptor_at_a_time_witness :
  sys_inv (sys_started true 8 9) /\
  Forall (fun t => 0 <= t) (tids sample_schedule) /\
  (exists s, run 12 (sys_started true 8 9) sample_schedule = Some s /\
             (length (acceptors s) <= 1)%nat /\
             (acceptors s = [] <-> thread (sw s) < 0)).
Proof.
  assert (Hinv : sys_inv (sys_started true 8 9)).
  { split; [reflexivity|]. left. split; [reflexivity | simpl; lia]. }
  assert (Htids : Forall (fun t => 0 <= t) (tids sample_schedule)).
  { repeat constructor; lia. }
  split; [exact Hinv|]. split; [exact Htids|].
  destruct (run 12 (sys_started true 8 9) sample_schedule) as [s|] eqn:Hrun;
    [|vm_compute in Hrun; discriminate].
  exists s. split; [reflexivity|].
  destruct (one_acceptor_at_a_time 12 sample_schedule _ s Hinv Htids Hrun)
    as (Hone & Hiff & _).
  now split.
Defined.

Lemma broken_pipe_rearms_in_same_pass_witness :
  table_ok subscribed_world /\
  locked_pass (line_with start_line WPipe) subscribed_world =
    Done true (world_of (locked_pass (line_with start_line WPipe) subscribed_world)) /\
  thread (world_of (locked_pass (line_with start_line WPipe) subscribed_world)) = 44.
Proof.
  assert (Hok : table_ok subscribed_world) by reflexivity.
  assert (Hrun : locked_pass (line_with start_line WPipe) subscribed_world =
    Done true (world_of (locked_pass (line_with start_line WPipe) subscribed_world)))
    by (vm_compute; reflexivity).
  split; [exact Hok|]. split; [exact Hrun|].
  destruct (broken_pipe_rearms_in_same_pass _ _ _ _ (LogListener 7 am_proc_start_filter)
              Hok Hrun eq_refl ltac:(simpl; lia) ltac:(vm_compute; reflexivity) eq_refl)
    as (_ & Hneg & _).
  apply Hneg. simpl. lia.
Defined.

Lemma descriptor_zero_neither_served_nor_replaced_witness :
  table_ok zero_world /\
  locked_pass (line_with start_line (WDone 1)) zero_world =
    Done false (world_of (locked_pass (line_with start_line (WDone 1)) zero_world)) /\
  log_events (world_of (locked_pass (line_with start_line (WDone 1)) zero_world)) =
    log_events zero_world.
Proof.
  assert (Hok : table_ok zero_world) by reflexivity.
  assert (Hrun : locked_pass (line_with start_line (WDone 1)) zero_world =
    Done false (world_of (locked_pass (line_with start_line (WDone 1)) zero_world)))
    by (vm_compute; reflexivity).
  split; [exact Hok|]. split; [exact Hrun|].
  destruct (descriptor_zero_neither_served_nor_replaced _ _ _ _
              (LogListener 0 am_proc_start_filter) Hok Hrun eq_refl eq_refl)
    as (_ & _ & Htbl & _).
  - intros i. discriminate.
  - exact Htbl.
Defined.

Lemma registration_then_dispatch_witness :
  table_ok world_init /\
  lock world_init = false /\
  0 < 22 /\
  exists w1,
    socket_thread 12 [(22, 12)] world_init = Done tt w1 /\
    exists tr,
      trace (world_of (locked_pass (line_with start_line (WDone 1)) w1)) = trace w1 ++ tr /\
      slot_writes HIDE_EVENT tr = [(22, start_line, strlen start_line)].
Proof.
  assert (Hok : table_ok world_init) by reflexivity.
  assert (Hfree : lock world_init = false) by reflexivity.
  assert (Hpos : 0 < 22) by lia.
  split; [exact Hok|]. split; [exact Hfree|]. split; [exact Hpos|].
  destruct (registration_then_dispatch 12 22 [] world_init
              (LogListener (-1) am_proc_start_filter) Hok eq_refl Hfree Hpos)
    as (w1 & Hreg & _ & Hpass).
  exists w1. split; [exact Hreg|].
  assert (Hc : socket_thread 12 [(22, 12)] world_init =
                 Done tt (World 1 (-1) (install_hide 22 log_events_init) false
                            [EAccept 22; ELock; EUnlock])) by reflexivity.
  rewrite Hc in Hreg. injection Hreg as <-.
  match goal with |- context [locked_pass ?l ?w] =>
    destruct (Hpass l false (world_of (locked_pass l w)) ltac:(vm_compute; reflexivity))
      as (tr & Htr & Hiff & _) end.
  exists tr. split; [exact Htr|]. apply Hiff. vm_compute. reflexivity.
Defined.

Lemma file_listener_gets_the_filtered_stream_witness :
  table_ok subscribed_world /\
  LOG_EVENT <> HIDE_EVENT /\
  exists w' tr,
    read_lines 100 true
      [ line_with marker_line (WDone 1); line_with info_line (WDone 1);
        line_with debug_line (WDone 1); last_line; line_with info_line (WDone 1) ]
      subscribed_world = Done tt w' /\
    trace w' = trace subscribed_world ++ tr /\
    slot_writes LOG_EVENT tr =
      [(8, info_line, strlen info_line); (8, info_line, strlen info_line)].
Proof.
  assert (Hok : table_ok subscribed_world) by reflexivity.
  assert (Hi : LOG_EVENT <> HIDE_EVENT) by discriminate.
  split; [exact Hok|]. split; [exact Hi|].
  eexists.
  assert (Hrun : read_lines 100 true
      [ line_with marker_line (WDone 1); line_with info_line (WDone 1);
        line_with debug_line (WDone 1); last_line; line_with info_line (WDone 1) ]
      subscribed_world =
    Done tt (world_of (read_lines 100 true
      [ line_with marker_line (WDone 1); line_with info_line (WDone 1);
        line_with debug_line (WDone 1); last_line; line_with info_line (WDone 1) ]
      subscribed_world))) by (vm_compute; reflexivity).
  destruct (file_listener_gets_the_filtered_stream LOG_EVENT _ _ _ _ _ Hok Hi Hrun)
    as (tr & Htr & Hs).
  exists tr. split; [exact Hrun|]. split; [exact Htr|].
  rewrite Hs. vm_compute. reflexivity.
Defined.
